(** * EncryptedSurvey: a shallow embedding of contracts/EncryptedSurvey.sol

    The contract keeps one encrypted running total per survey option and a
    ledger of the addresses that have voted.  The homomorphic engine (the
    FHE library of the FHEVM) is outside the repository: it is taken as an
    interface, and the access-control list it maintains is carried in the
    contract state as a finite set of (handle, address) pairs. *)

From Stdlib Require Import NArith.
From stdpp Require Import gmap strings list.

Open Scope N_scope.

(** ** Solidity value types *)

(** [address] is a 160-bit word, [uint256] a 256-bit word; [euint32] and
    [externalEuint32] are [bytes32] handles.  Nothing in the contract does
    arithmetic on them besides comparing an index with an array length, so
    they are kept as binary naturals. *)
Abbreviation address := N (only parsing).
Abbreviation uint256 := N (only parsing).
Abbreviation euint32 := N (only parsing).
Abbreviation externalEuint32 := N (only parsing).
Abbreviation bytes := (list Byte.byte) (only parsing).

(** The permission table of the FHEVM: the pairs (handle, account) for which
    [FHE.allow] has been called. *)
Abbreviation ACL := (gset (N * N)) (only parsing).

(** ** The external FHE capability *)

Class FHEVM := {
  (** [address(this)], the account [FHE.allowThis] grants access to *)
  this : address;
  (** [FHE.fromExternal(encryptedVote, inputProof)] called by [msg.sender]:
      [None] when the library rejects the proof and reverts *)
  FHE_fromExternal : ACL -> address -> externalEuint32 -> bytes -> option euint32;
  (** [FHE.add(a, b)]: the handle of the homomorphic sum *)
  FHE_add : euint32 -> euint32 -> euint32
}.

(** Modelled from the spec: [FHE.allow(handle, account)] of the FHEVM
    library, which the repository imports and does not contain.  It records
    that [account] may ask for the decryption of [handle]; there is no
    revocation, and a grant made twice is the grant made once. *)
Definition FHE_allow (handle : euint32) (account : address) (acl : ACL) : ACL :=
  {[ (handle, account) ]} ∪ acl.

(** A Solidity [mapping(K => bool)]: every key reads [false] until written. *)
Definition mapping_get `{Countable K} (m : gmap K bool) (k : K) : bool :=
  default false (m !! k).

(** ** Errors, events, results *)

Inductive Error :=
  | SurveyNotConfigured
  | AlreadyVoted
  | InvalidOption
  | NotOwner
  | SurveyClosed
  | InvalidProof   (* revert raised inside FHE.fromExternal *)
  | Panic.         (* Solidity's array bounds check *)

Inductive Event :=
  | SurveyConfigured (question : string) (options : list string)
  | VoteSubmitted (voter : address) (optionIndex : uint256)
  | SurveyFinalized (owner : address)
  | ResultAccessGranted (grantee : address) (optionIndex : uint256)
  | SelfAccessGranted (user : address) (optionIndex : uint256).

Inductive result (A : Type) :=
  | Ok (a : A)
  | Revert (e : Error).
Arguments Ok {A} a.
Arguments Revert {A} e.

Definition succeeds {A} (r : result A) : bool :=
  match r with Ok _ => true | Revert _ => false end.

(** ** Contract storage *)

Record SurveyOption := mkOption {
  label : string;
  encryptedTotal : euint32
}.

Record State := mkState {
  owner : address;
  surveyCreator : address;
  surveyQuestion : string;
  _options : list SurveyOption;
  isConfigured : bool;
  isFinalized : bool;
  hasVoted : gmap N bool;
  optionHasVotes : gmap N bool;
  acl : gset (N * N)
}.

(** A state-changing function returns the new storage and the events it
    emitted, or reverts; a revert leaves the storage as it was. *)
Definition tx_result : Type := result (State * list Event).

Section Contract.
Context `{FHE : FHEVM}.

Definition constructor_ (sender : address) (acl0 : ACL) : State :=
  {| owner := sender; surveyCreator := 0; surveyQuestion := "";
     _options := []; isConfigured := false; isFinalized := false;
     hasVoted := ∅; optionHasVotes := ∅; acl := acl0 |}.

(** The loop of [configureSurvey]: one push per label, the accumulator left
    at its default (the zero handle). *)
Definition push_options (optionLabels : list string) (opts : list SurveyOption)
  : list SurveyOption :=
  fold_left (fun acc l => acc ++ [ {| label := l; encryptedTotal := 0 |} ])
            optionLabels opts.

Definition configureSurvey (sender : address) (question : string)
    (optionLabels : list string) (s : State) : tx_result :=
  if isConfigured s then Revert SurveyClosed else
  if N.of_nat (length optionLabels) <? 2 then Revert InvalidOption else
  Ok ({| owner := owner s;
         surveyCreator := sender;
         surveyQuestion := question;
         _options := push_options optionLabels [];
         isConfigured := true;
         isFinalized := false;
         hasVoted := hasVoted s;
         optionHasVotes := optionHasVotes s;
         acl := acl s |},
      [SurveyConfigured question optionLabels]).

Definition submitVote (sender : address) (optionIndex : uint256)
    (encryptedVote : externalEuint32) (inputProof : bytes) (s : State)
  : tx_result :=
  if negb (isConfigured s) then Revert SurveyNotConfigured else
  if isFinalized s then Revert SurveyClosed else
  if mapping_get (hasVoted s) sender then Revert AlreadyVoted else
  if N.of_nat (length (_options s)) <=? optionIndex then Revert InvalidOption else
  match _options s !! N.to_nat optionIndex with
  | None => Revert Panic
  | Some option =>
    match FHE_fromExternal (acl s) sender encryptedVote inputProof with
    | None => Revert InvalidProof
    | Some voteValue =>
      let total := FHE_add (encryptedTotal option) voteValue in
      let acl1 := FHE_allow total this (acl s) in
      let acl2 := FHE_allow total (owner s) acl1 in
      let acl3 := if surveyCreator s =? 0 then acl2
                  else FHE_allow total (surveyCreator s) acl2 in
      Ok ({| owner := owner s;
             surveyCreator := surveyCreator s;
             surveyQuestion := surveyQuestion s;
             _options := <[ N.to_nat optionIndex :=
                              {| label := label option; encryptedTotal := total |} ]>
                           (_options s);
             isConfigured := isConfigured s;
             isFinalized := isFinalized s;
             hasVoted := <[ sender := true ]> (hasVoted s);
             optionHasVotes := <[ optionIndex := true ]> (optionHasVotes s);
             acl := acl3 |},
          [VoteSubmitted sender optionIndex])
    end
  end.

Definition set_isFinalized (b : bool) (s : State) : State :=
  {| owner := owner s; surveyCreator := surveyCreator s;
     surveyQuestion := surveyQuestion s; _options := _options s;
     isConfigured := isConfigured s; isFinalized := b;
     hasVoted := hasVoted s; optionHasVotes := optionHasVotes s;
     acl := acl s |}.

Definition set_acl (a : ACL) (s : State) : State :=
  {| owner := owner s; surveyCreator := surveyCreator s;
     surveyQuestion := surveyQuestion s; _options := _options s;
     isConfigured := isConfigured s; isFinalized := isFinalized s;
     hasVoted := hasVoted s; optionHasVotes := optionHasVotes s;
     acl := a |}.

Definition finalizeSurvey (sender : address) (s : State) : tx_result :=
  if negb (isConfigured s) then Revert SurveyNotConfigured else
  if isFinalized s then Revert SurveyClosed else
  Ok (set_isFinalized true s, [SurveyFinalized sender]).

Definition allowResultFor (sender grantee : address) (optionIndex : uint256)
    (s : State) : tx_result :=
  if negb (isConfigured s) then Revert SurveyNotConfigured else
  if N.of_nat (length (_options s)) <=? optionIndex then Revert InvalidOption else
  if negb (mapping_get (optionHasVotes s) optionIndex) then Revert SurveyNotConfigured else
  match _options s !! N.to_nat optionIndex with
  | None => Revert Panic
  | Some option =>
    Ok (set_acl (FHE_allow (encryptedTotal option) grantee (acl s)) s,
        [ResultAccessGranted grantee optionIndex])
  end.

Definition allowResultForSelf (sender : address) (optionIndex : uint256)
    (s : State) : tx_result :=
  if negb (isConfigured s) then Revert SurveyNotConfigured else
  if N.of_nat (length (_options s)) <=? optionIndex then Revert InvalidOption else
  if negb (mapping_get (optionHasVotes s) optionIndex) then Revert SurveyNotConfigured else
  match _options s !! N.to_nat optionIndex with
  | None => Revert Panic
  | Some option =>
    Ok (set_acl (FHE_allow (encryptedTotal option) sender (acl s)) s,
        [SelfAccessGranted sender optionIndex])
  end.

(** The loop of [allowAllResultsForSelf], from index [i] over the options
    that remain; it threads the permission table, the emitted events and the
    local [hasAnyVotes]. *)
Fixpoint allowAll_loop (sender : address) (votes : gmap N bool)
    (opts : list SurveyOption) (i : uint256)
    (st : ACL * list Event * bool) : ACL * list Event * bool :=
  match opts with
  | [] => st
  | option :: rest =>
    let '(a, evs, hasAnyVotes) := st in
    allowAll_loop sender votes rest (N.succ i)
      (if mapping_get votes i
       then (FHE_allow (encryptedTotal option) sender a,
             evs ++ [SelfAccessGranted sender i], true)
       else (a, evs, hasAnyVotes))
  end.

Definition allowAllResultsForSelf (sender : address) (s : State) : tx_result :=
  if negb (isConfigured s) then Revert SurveyNotConfigured else
  let '(a, evs, hasAnyVotes) :=
    allowAll_loop sender (optionHasVotes s) (_options s) 0 (acl s, [], false) in
  if negb hasAnyVotes then Revert SurveyNotConfigured else
  Ok (set_acl a s, evs).

(** *** Views *)

Definition getOptionLabels (s : State) : result (list string) :=
  if negb (isConfigured s) then Revert SurveyNotConfigured else
  Ok (map label (_options s)).

Definition getEncryptedTotal (optionIndex : uint256) (s : State) : result euint32 :=
  if negb (isConfigured s) then Revert SurveyNotConfigured else
  if N.of_nat (length (_options s)) <=? optionIndex then Revert InvalidOption else
  match _options s !! N.to_nat optionIndex with
  | None => Revert Panic
  | Some option => Ok (encryptedTotal option)
  end.

Definition optionCount (s : State) : result uint256 :=
  if negb (isConfigured s) then Revert SurveyNotConfigured else
  Ok (N.of_nat (length (_options s))).

Definition hasVoterSubmitted (voter : address) (s : State) : result bool :=
  Ok (mapping_get (hasVoted s) voter).

End Contract.

(** ** The public interface *)

(** Every external function of the contract, with the getters Solidity
    generates for the public state variables. *)
Inductive Call :=
  | ConfigureSurvey (question : string) (optionLabels : list string)
  | SubmitVote (optionIndex : uint256) (encryptedVote : externalEuint32)
               (inputProof : bytes)
  | FinalizeSurvey
  | AllowResultFor (grantee : address) (optionIndex : uint256)
  | AllowResultForSelf (optionIndex : uint256)
  | AllowAllResultsForSelf
  | GetOptionLabels
  | GetEncryptedTotal (optionIndex : uint256)
  | OptionCount
  | HasVoterSubmitted (voter : address)
  | Get_owner
  | Get_surveyCreator
  | Get_surveyQuestion
  | Get_isConfigured
  | Get_isFinalized
  | Get_hasVoted (voter : address)
  | Get_optionHasVotes (optionIndex : uint256).

Inductive RetVal :=
  | RUnit
  | RBool (b : bool)
  | RUint (n : uint256)
  | RAddress (a : address)
  | RHandle (h : euint32)
  | RString (s : string)
  | RStrings (l : list string).

Definition Tx : Type := address * Call.

Section Interface.
Context `{FHE : FHEVM}.

Definition of_tx (r : tx_result) : result (State * list Event * RetVal) :=
  match r with
  | Ok (s', evs) => Ok (s', evs, RUnit)
  | Revert e => Revert e
  end.

Definition of_view {A} (wrap : A -> RetVal) (s : State) (r : result A)
  : result (State * list Event * RetVal) :=
  match r with
  | Ok a => Ok (s, [], wrap a)
  | Revert e => Revert e
  end.

Definition call (sender : address) (c : Call) (s : State)
  : result (State * list Event * RetVal) :=
  match c with
  | ConfigureSurvey question optionLabels =>
      of_tx (configureSurvey sender question optionLabels s)
  | SubmitVote optionIndex encryptedVote inputProof =>
      of_tx (submitVote sender optionIndex encryptedVote inputProof s)
  | FinalizeSurvey => of_tx (finalizeSurvey sender s)
  | AllowResultFor grantee optionIndex =>
      of_tx (allowResultFor sender grantee optionIndex s)
  | AllowResultForSelf optionIndex =>
      of_tx (allowResultForSelf sender optionIndex s)
  | AllowAllResultsForSelf => of_tx (allowAllResultsForSelf sender s)
  | GetOptionLabels => of_view RStrings s (getOptionLabels s)
  | GetEncryptedTotal optionIndex =>
      of_view RHandle s (getEncryptedTotal optionIndex s)
  | OptionCount => of_view RUint s (optionCount s)
  | HasVoterSubmitted voter => of_view RBool s (hasVoterSubmitted voter s)
  | Get_owner => Ok (s, [], RAddress (owner s))
  | Get_surveyCreator => Ok (s, [], RAddress (surveyCreator s))
  | Get_surveyQuestion => Ok (s, [], RString (surveyQuestion s))
  | Get_isConfigured => Ok (s, [], RBool (isConfigured s))
  | Get_isFinalized => Ok (s, [], RBool (isFinalized s))
  | Get_hasVoted voter => Ok (s, [], RBool (mapping_get (hasVoted s) voter))
  | Get_optionHasVotes optionIndex =>
      Ok (s, [], RBool (mapping_get (optionHasVotes s) optionIndex))
  end.

(** The storage after a call: the new one when the call returns, the old one
    when it reverts. *)
Definition exec (tx : Tx) (s : State) : State :=
  match call tx.1 tx.2 s with
  | Ok (s', _, _) => s'
  | Revert _ => s
  end.

Definition run (txs : list Tx) (s : State) : State :=
  fold_left (fun st tx => exec tx st) txs s.

(** The states a deployment can be in. *)
Inductive reachable : State -> Prop :=
  | reachable_deploy sender acl0 : reachable (constructor_ sender acl0)
  | reachable_call tx s : reachable s -> reachable (exec tx s).

(** Did some transaction of [txs], run from [s], carry a [submitVote] of
    [voter] that was accepted? *)
Definition is_vote_of (voter : address) (tx : Tx) : bool :=
  match tx.2 with
  | SubmitVote _ _ _ => bool_decide (tx.1 = voter)
  | _ => false
  end.

Fixpoint vote_accepted (voter : address) (txs : list Tx) (s : State) : bool :=
  match txs with
  | [] => false
  | tx :: rest =>
      (is_vote_of voter tx && succeeds (call tx.1 tx.2 s))
      || vote_accepted voter rest (exec tx s)
  end.

(** How often [isConfigured] goes from false to true along [txs]. *)
Fixpoint configured_flips (txs : list Tx) (s : State) : nat :=
  match txs with
  | [] => 0%nat
  | tx :: rest =>
      ((if negb (isConfigured s) && isConfigured (exec tx s) then 1 else 0)
       + configured_flips rest (exec tx s))%nat
  end.

(** The five shapes a transaction can have on the storage. *)
Inductive effect (s : State) (s' : State) : Prop :=
  | eff_none : s' = s -> effect s s'
  | eff_configure sender q labels evs :
      configureSurvey sender q labels s = Ok (s', evs) -> effect s s'
  | eff_vote sender k e p evs :
      submitVote sender k e p s = Ok (s', evs) -> effect s s'
  | eff_finalize :
      isConfigured s = true -> isFinalized s = false ->
      s' = set_isFinalized true s -> effect s s'
  | eff_grant a : s' = set_acl a s -> effect s s'.

(** What holds of every state a deployment reaches. *)
Record Inv (s : State) : Prop := {
  inv_options : isConfigured s = true -> (2 <= length (_options s))%nat;
  inv_finalized : isFinalized s = true -> isConfigured s = true;
  inv_fresh_votes : isConfigured s = false -> optionHasVotes s = ∅;
  inv_fresh_voters : isConfigured s = false -> hasVoted s = ∅;
  inv_fresh_options : isConfigured s = false -> _options s = []
}.

(** The result of a transaction with [f] applied to the storage it returns. *)
Definition tx_map (f : State -> State) (r : tx_result) : tx_result :=
  match r with
  | Ok (s', evs) => Ok (f s', evs)
  | Revert e => Revert e
  end.

(** The indices [i], [i+1], ... of [n] consecutive array slots. *)
Fixpoint indices_from (i : uint256) (n : nat) : list uint256 :=
  match n with
  | O => []
  | S n' => i :: indices_from (N.succ i) n'
  end.

(** The options that have received a vote, by increasing index. *)
Definition options_with_votes (s : State) : list uint256 :=
  List.filter (mapping_get (optionHasVotes s))
              (indices_from 0 (length (_options s))).

(** *** Ballots

    The record of an accepted vote: who cast it, for which option, and the
    encrypted value the engine made of the input. *)
Record Ballot := mkBallot {
  voter : address;
  choice : uint256;
  value : euint32
}.

(** The ballot a transaction casts in state [s]: some ballot when it is a
    [submitVote] that returns, none otherwise. *)
Definition accepted_vote (tx : Tx) (s : State) : option Ballot :=
  match tx.2 with
  | SubmitVote optionIndex encryptedVote inputProof =>
      if succeeds (submitVote tx.1 optionIndex encryptedVote inputProof s)
      then mkBallot tx.1 optionIndex
             <$> FHE_fromExternal (acl s) tx.1 encryptedVote inputProof
      else None
  | _ => None
  end.

(** The ballots cast along [txs], oldest first. *)
Fixpoint ballots (txs : list Tx) (s : State) : list Ballot :=
  match txs with
  | [] => []
  | tx :: rest =>
      match accepted_vote tx s with
      | Some b => b :: ballots rest (exec tx s)
      | None => ballots rest (exec tx s)
      end
  end.

(** The encrypted values cast for option [k], oldest first. *)
Definition ballot_values (k : uint256) (bs : list Ballot) : list euint32 :=
  map value (List.filter (fun b => choice b =? k) bs).

(** *** Consistency of the side tables

    How the vote flags, the voter ledger, the accumulators and the
    permission table hang together. *)
Record Consistent (s : State) : Prop := {
  cons_flag_range : forall k,
    mapping_get (optionHasVotes s) k = true ->
    k < N.of_nat (length (_options s));
  cons_zero_handle : forall (i : nat) o,
    _options s !! i = Some o ->
    mapping_get (optionHasVotes s) (N.of_nat i) = false ->
    encryptedTotal o = 0;
  cons_voters_flags :
    (exists v, mapping_get (hasVoted s) v = true)
    <-> (exists k, mapping_get (optionHasVotes s) k = true);
  cons_access : forall (i : nat) o,
    _options s !! i = Some o ->
    mapping_get (optionHasVotes s) (N.of_nat i) = true ->
    (encryptedTotal o, owner s) ∈ acl s
    /\ (encryptedTotal o, this) ∈ acl s
    /\ (surveyCreator s ≠ 0 -> (encryptedTotal o, surveyCreator s) ∈ acl s)
}.

(** *** The event log

    The events of a transaction are those of the call when it returns; a
    reverted call leaves none. *)
Definition events_of (r : result (State * list Event * RetVal)) : list Event :=
  match r with
  | Ok (_, evs, _) => evs
  | Revert _ => []
  end.

(** The log written along [txs], oldest event first. *)
Fixpoint emitted (txs : list Tx) (s : State) : list Event :=
  match txs with
  | [] => []
  | tx :: rest => events_of (call tx.1 tx.2 s) ++ emitted rest (exec tx s)
  end.

Definition is_VoteSubmitted (e : Event) : bool :=
  match e with VoteSubmitted _ _ => true | _ => false end.

Definition is_SurveyConfigured (e : Event) : bool :=
  match e with SurveyConfigured _ _ => true | _ => false end.

Definition is_SurveyFinalized (e : Event) : bool :=
  match e with SurveyFinalized _ => true | _ => false end.

End Interface.

(** ** The survey form of the dashboard

    [EncryptedSurveyDashboard.tsx] turns the text of the options box into the
    labels it passes to [configureSurvey]:
    [optionDraft.split(/\r?\n/).map(line => line.trim()).filter(Boolean)].
    A JavaScript string is a sequence of UTF-16 code units. *)
Abbreviation js_string := (list N) (only parsing).

Definition LF : N := 10.
Definition CR : N := 13.

(** The code units [String.prototype.trim] strips: WhiteSpace (tab, VT, FF,
    the space separators of Unicode, the byte order mark) and LineTerminator
    (LF, CR, LS, PS). *)
Definition is_whitespace (c : N) : bool :=
  (c =? 9) || (c =? 10) || (c =? 11) || (c =? 12) || (c =? 13) || (c =? 32)
  || (c =? 160) || (c =? 5760) || ((8192 <=? c) && (c <=? 8202))
  || (c =? 8232) || (c =? 8233) || (c =? 8239) || (c =? 8287)
  || (c =? 12288) || (c =? 65279).

(** [c] put in front of the first line. *)
Definition cons_head (c : N) (lines : list js_string) : list js_string :=
  match lines with
  | [] => [[c]]
  | l :: rest => (c :: l) :: rest
  end.

(** [s.split(/\r?\n/)]: a line ends at each LF, and a CR right before that
    LF belongs to the separator. *)
Fixpoint split_lines (s : js_string) : list js_string :=
  match s with
  | [] => [[]]
  | c :: rest =>
      if c =? LF then [] :: split_lines rest
      else match rest with
           | d :: rest' =>
               if (c =? CR) && (d =? LF) then [] :: split_lines rest'
               else cons_head c (split_lines rest)
           | [] => cons_head c (split_lines rest)
           end
  end.

Fixpoint trimStart (s : js_string) : js_string :=
  match s with
  | [] => []
  | c :: rest => if is_whitespace c then trimStart rest else s
  end.

Definition trimEnd (s : js_string) : js_string :=
  reverse (trimStart (reverse s)).

Definition trim (s : js_string) : js_string := trimEnd (trimStart s).

(** [Boolean(line)]: a string is truthy when it is not empty. *)
Definition truthy (s : js_string) : bool :=
  match s with [] => false | _ => true end.

Definition optionLines (optionDraft : js_string) : list js_string :=
  List.filter truthy (map trim (split_lines optionDraft)).

(** The text of [lines] with a line feed between two lines. *)
Fixpoint join_lines (lines : list js_string) : js_string :=
  match lines with
  | [] => []
  | [l] => l
  | l :: rest => l ++ LF :: join_lines rest
  end.

(** A label as the form produces it: not empty, no white space at either
    end, no line feed inside. *)
Definition clean_line (l : js_string) : bool :=
  match head l, last l with
  | Some c, Some d =>
      negb (is_whitespace c) && negb (is_whitespace d)
      && forallb (fun x => negb (x =? LF)) l
  | _, _ => false
  end.

(** ** A stand-in engine for running the contract

    Handles are the plain totals modulo 2^32, and a proof is accepted when it
    is not empty. *)
Definition plain_fhe : FHEVM :=
  {| this := 1000;
     FHE_fromExternal := fun _ _ encryptedVote inputProof =>
       match inputProof with
       | [] => None
       | _ => Some (encryptedVote mod 2^32)
       end;
     FHE_add := fun a b => (a + b) mod 2^32 |}.

Module Scenario.
#[local] Existing Instance plain_fhe.

Definition deployer : address := 1.
Definition alice : address := 2.
Definition bob : address := 3.
Definition proof : bytes := [Byte.x01].

Definition deployed : State := constructor_ deployer ∅.
Definition configured : State :=
  exec (alice, ConfigureSurvey "Q" ["Red"; "Blue"]) deployed.
Definition voted : State := exec (alice, SubmitVote 0 1 proof) configured.
Definition finalized : State := exec (bob, FinalizeSurvey) voted.

End Scenario.

(** ** Basic facts *)

Section Facts.
Context `{FHE : FHEVM}.

Lemma mapping_get_insert `{Countable K} (m : gmap K bool) (k : K) (b : bool) :
  mapping_get (<[k := b]> m) k = b.
Proof. unfold mapping_get. by rewrite lookup_insert_eq. Qed.

Lemma mapping_get_insert_ne `{Countable K} (m : gmap K bool) (k j : K) (b : bool) :
  k ≠ j -> mapping_get (<[k := b]> m) j = mapping_get m j.
Proof. intros Hne. unfold mapping_get. by rewrite lookup_insert_ne. Qed.

Lemma mapping_get_insert_true `{Countable K} (m : gmap K bool) (k j : K) :
  mapping_get m j = true -> mapping_get (<[k := true]> m) j = true.
Proof.
  intros Hj. destruct (decide (k = j)) as [->|Hne].
  - apply mapping_get_insert.
  - by rewrite mapping_get_insert_ne.
Qed.

Lemma mapping_get_empty `{Countable K} (k : K) :
  mapping_get (∅ : gmap K bool) k = false.
Proof. unfold mapping_get. by rewrite lookup_empty. Qed.

Lemma push_options_app labels opts :
  push_options labels opts
  = opts ++ map (fun l => {| label := l; encryptedTotal := 0 |}) labels.
Proof.
  unfold push_options. revert opts.
  induction labels as [|l labels IH]; intros opts; simpl.
  - by rewrite app_nil_r.
  - rewrite IH. by rewrite <- app_assoc.
Qed.

Lemma push_options_nil labels :
  push_options labels []
  = map (fun l => {| label := l; encryptedTotal := 0 |}) labels.
Proof. by rewrite push_options_app. Qed.

(** An index below the length addresses an element (no [Panic]). *)
Lemma options_lookup_lt (opts : list SurveyOption) (k : N) :
  k < N.of_nat (length opts) -> is_Some (opts !! N.to_nat k).
Proof. intros Hk. apply lookup_lt_is_Some. lia. Qed.

(** What an accepted vote looked like. *)
Lemma submitVote_Ok sender k e p s s' evs :
  submitVote sender k e p s = Ok (s', evs) ->
  isConfigured s = true /\ isFinalized s = false
  /\ mapping_get (hasVoted s) sender = false
  /\ k < N.of_nat (length (_options s))
  /\ evs = [VoteSubmitted sender k]
  /\ exists o v,
       _options s !! N.to_nat k = Some o
       /\ FHE_fromExternal (acl s) sender e p = Some v
       /\ owner s' = owner s
       /\ surveyCreator s' = surveyCreator s
       /\ surveyQuestion s' = surveyQuestion s
       /\ _options s'
          = <[ N.to_nat k := {| label := label o;
                                encryptedTotal := FHE_add (encryptedTotal o) v |} ]>
              (_options s)
       /\ isConfigured s' = isConfigured s
       /\ isFinalized s' = isFinalized s
       /\ hasVoted s' = <[ sender := true ]> (hasVoted s)
       /\ optionHasVotes s' = <[ k := true ]> (optionHasVotes s).
Proof.
  unfold submitVote.
  destruct (isConfigured s) eqn:Hc; simpl; [|done].
  destruct (isFinalized s) eqn:Hf; [done|].
  destruct (mapping_get (hasVoted s) sender) eqn:Hv; [done|].
  destruct (N.leb_spec (N.of_nat (length (_options s))) k) as [Hk|Hk]; [done|].
  destruct (_options s !! N.to_nat k) as [o|] eqn:Ho; [|done].
  destruct (FHE_fromExternal (acl s) sender e p) as [v|] eqn:Hp; [|done].
  intros [= <- <-]. simpl.
  repeat split; try done. exists o, v. by repeat split.
Qed.

End Facts.

(** ** Vote submission *)

Section Voting.
Context `{FHE : FHEVM}.

(** C1. In a configured, open survey, a caller without a recorded vote who
    names an option in range and whose proof the engine accepts gets the vote
    accepted: one call returns a state in which that option's accumulator is
    the homomorphic sum of the old one and the vote, the option's
    [optionHasVotes] flag and the caller's [hasVoted] record are true, and the
    owner and (when it is not the zero address) the creator may decrypt the
    new accumulator. *)
Theorem submitVote_accepts sender k e p v s :
  isConfigured s = true ->
  isFinalized s = false ->
  mapping_get (hasVoted s) sender = false ->
  k < N.of_nat (length (_options s)) ->
  FHE_fromExternal (acl s) sender e p = Some v ->
  exists o s',
    _options s !! N.to_nat k = Some o
    /\ submitVote sender k e p s = Ok (s', [VoteSubmitted sender k])
    /\ _options s' !! N.to_nat k
       = Some {| label := label o;
                 encryptedTotal := FHE_add (encryptedTotal o) v |}
    /\ getEncryptedTotal k s' = Ok (FHE_add (encryptedTotal o) v)
    /\ mapping_get (optionHasVotes s') k = true
    /\ mapping_get (hasVoted s') sender = true
    /\ (FHE_add (encryptedTotal o) v, owner s') ∈ acl s'
    /\ (surveyCreator s' ≠ 0 ->
        (FHE_add (encryptedTotal o) v, surveyCreator s') ∈ acl s')
    /\ (FHE_add (encryptedTotal o) v, this) ∈ acl s'
    /\ acl s ⊆ acl s'.
Proof.
  intros Hc Hf Hv Hk Hp.
  destruct (options_lookup_lt _ _ Hk) as [o Ho].
  assert (Hlen : (N.of_nat (length (_options s)) <=? k) = false)
    by (apply N.leb_gt; lia).
  eexists o, _. split; [done|].
  unfold submitVote. rewrite Hc, Hf, Hv, Hlen, Ho, Hp. simpl.
  split; [reflexivity|]. simpl.
  assert (Hins : <[N.to_nat k := {| label := label o;
                     encryptedTotal := FHE_add (encryptedTotal o) v |}]>
                   (_options s) !! N.to_nat k
                 = Some {| label := label o;
                           encryptedTotal := FHE_add (encryptedTotal o) v |}).
  { apply list_lookup_insert_eq. lia. }
  split; [done|]. split.
  { unfold getEncryptedTotal. simpl.
    rewrite length_insert, Hlen, Hins. done. }
  split; [apply mapping_get_insert|]. split; [apply mapping_get_insert|].
  unfold FHE_allow.
  destruct (N.eqb_spec (surveyCreator s) 0) as [Hz|Hz];
    repeat split; try set_solver.
Qed.

(** C10. An accepted vote of [sender] for option [k] leaves every other
    option (label, accumulator, flag), every other voter's record, and the
    question, [isConfigured] and [isFinalized] as they were. *)
Theorem submitVote_frame sender k e p s s' evs :
  submitVote sender k e p s = Ok (s', evs) ->
  (forall j, j ≠ k ->
     _options s' !! N.to_nat j = _options s !! N.to_nat j
     /\ mapping_get (optionHasVotes s') j = mapping_get (optionHasVotes s) j)
  /\ (forall voter, voter ≠ sender ->
        mapping_get (hasVoted s') voter = mapping_get (hasVoted s) voter)
  /\ surveyQuestion s' = surveyQuestion s
  /\ isConfigured s' = isConfigured s
  /\ isFinalized s' = isFinalized s
  /\ owner s' = owner s
  /\ surveyCreator s' = surveyCreator s
  /\ length (_options s') = length (_options s)
  /\ map label (_options s') = map label (_options s).
Proof.
  intros Hok.
  destruct (submitVote_Ok _ _ _ _ _ _ _ Hok)
    as (_ & _ & _ & Hk & _ & o & v & Ho & _ & Hown & Hcr & Hq & Hopts & Hc & Hf & Hhv & Hov).
  split.
  { intros j Hj. split.
    - rewrite Hopts. apply list_lookup_insert_ne. lia.
    - rewrite Hov. by apply mapping_get_insert_ne. }
  split.
  { intros voter Hne. rewrite Hhv. by apply mapping_get_insert_ne. }
  repeat split; try done.
  - rewrite Hopts. apply length_insert.
  - rewrite Hopts. rewrite list_fmap_insert. simpl.
    apply list_insert_id. rewrite list_lookup_fmap, Ho. done.
Qed.

End Voting.

(** ** The lifecycle as a transition system *)

Section Lifecycle.
Context `{FHE : FHEVM}.

Lemma configureSurvey_Ok sender q labels s s' evs :
  configureSurvey sender q labels s = Ok (s', evs) ->
  isConfigured s = false /\ (2 <= length labels)%nat
  /\ evs = [SurveyConfigured q labels]
  /\ s' = {| owner := owner s; surveyCreator := sender; surveyQuestion := q;
             _options := map (fun l => {| label := l; encryptedTotal := 0 |}) labels;
             isConfigured := true; isFinalized := false;
             hasVoted := hasVoted s; optionHasVotes := optionHasVotes s;
             acl := acl s |}.
Proof.
  unfold configureSurvey.
  destruct (isConfigured s) eqn:Hc; [done|].
  destruct (N.ltb_spec (N.of_nat (length labels)) 2) as [Hl|Hl]; [done|].
  rewrite push_options_nil. intros [= <- <-].
  repeat split; try done. lia.
Qed.

Lemma allowAllResultsForSelf_Ok sender s s' evs :
  allowAllResultsForSelf sender s = Ok (s', evs) ->
  exists a, s' = set_acl a s.
Proof.
  unfold allowAllResultsForSelf.
  destruct (negb (isConfigured s)); [done|].
  destruct (allowAll_loop _ _ _ _ _) as [[a evs'] b].
  destruct (negb b); [done|]. intros [= <- <-]. by exists a.
Qed.

Lemma allowResultFor_Ok sender grantee k s s' evs :
  allowResultFor sender grantee k s = Ok (s', evs) ->
  exists a, s' = set_acl a s.
Proof.
  unfold allowResultFor.
  repeat (case_match; try done). intros [= <- <-]. by eexists.
Qed.

Lemma allowResultForSelf_Ok sender k s s' evs :
  allowResultForSelf sender k s = Ok (s', evs) ->
  exists a, s' = set_acl a s.
Proof.
  unfold allowResultForSelf.
  repeat (case_match; try done). intros [= <- <-]. by eexists.
Qed.

Lemma of_view_state {A} (wrap : A -> RetVal) s (r : result A) :
  match of_view wrap s r with Ok (s', _, _) => s' | Revert _ => s end = s.
Proof. by destruct r. Qed.

Lemma exec_effect tx s : effect s (exec tx s).
Proof.
  destruct tx as [sender c]. unfold exec. simpl.
  destruct c; simpl; unfold of_tx;
    try (by apply eff_none);
    try (rewrite of_view_state; by apply eff_none).
  - destruct (configureSurvey _ _ _ _) as [[s' evs]|] eqn:E;
      [by eapply eff_configure | by apply eff_none].
  - destruct (submitVote _ _ _ _ _) as [[s' evs]|] eqn:E;
      [by eapply eff_vote | by apply eff_none].
  - unfold finalizeSurvey.
    destruct (isConfigured s) eqn:Hc; simpl; [|by apply eff_none].
    destruct (isFinalized s) eqn:Hf; [by apply eff_none|].
    by apply eff_finalize.
  - destruct (allowResultFor _ _ _ _) as [[s' evs]|] eqn:E;
      [|by apply eff_none].
    destruct (allowResultFor_Ok _ _ _ _ _ _ E) as [a ->]. by eapply eff_grant.
  - destruct (allowResultForSelf _ _ _) as [[s' evs]|] eqn:E;
      [|by apply eff_none].
    destruct (allowResultForSelf_Ok _ _ _ _ _ E) as [a ->]. by eapply eff_grant.
  - destruct (allowAllResultsForSelf _ _) as [[s' evs]|] eqn:E;
      [|by apply eff_none].
    destruct (allowAllResultsForSelf_Ok _ _ _ _ E) as [a ->]. by eapply eff_grant.
Qed.

Lemma Inv_constructor sender acl0 : Inv (constructor_ sender acl0).
Proof. by split. Qed.

Lemma Inv_effect s s' : effect s s' -> Inv s -> Inv s'.
Proof.
  intros Heff HI. destruct Heff as [->|sender q labels evs H|sender k e p evs H|Hc Hf ->|a ->].
  - done.
  - apply configureSurvey_Ok in H as (Hc & Hl & _ & ->).
    split; simpl; try done. intros _. by rewrite length_map.
  - apply submitVote_Ok in H
      as (Hc & Hf & _ & _ & _ & o & v & _ & _ & _ & _ & _ & Hopts & Hc' & Hf' & _ & _).
    split; rewrite ?Hc', ?Hf', ?Hc, ?Hf; try done.
    intros _. rewrite Hopts, length_insert. by apply (inv_options _ HI).
  - destruct HI as [H1 H2 H3 H4 H5]. split; simpl; intros; auto; congruence.
  - destruct HI. by split.
Qed.

Lemma reachable_Inv s : reachable s -> Inv s.
Proof.
  induction 1 as [sender acl0|tx s _ IH].
  - apply Inv_constructor.
  - eapply Inv_effect; [apply exec_effect|done].
Qed.

Lemma run_app txs1 txs2 s : run (txs1 ++ txs2) s = run txs2 (run txs1 s).
Proof. unfold run. apply fold_left_app. Qed.

Lemma run_cons tx txs s : run (tx :: txs) s = run txs (exec tx s).
Proof. reflexivity. Qed.

Lemma reachable_run txs s : reachable s -> reachable (run txs s).
Proof.
  revert s. induction txs as [|tx txs IH]; intros s Hs; [done|].
  rewrite run_cons. apply IH. by apply reachable_call.
Qed.

(** *** What no transaction undoes *)

Lemma effect_isConfigured s s' :
  effect s s' -> isConfigured s = true -> isConfigured s' = true.
Proof.
  intros [->|sender q labels evs H|sender k e p evs H|Hc Hf ->|a ->] Hs; try done.
  - by apply configureSurvey_Ok in H as (_ & _ & _ & ->).
  - apply submitVote_Ok in H
      as (_ & _ & _ & _ & _ & o & v & _ & _ & _ & _ & _ & _ & Hc' & _).
    by rewrite Hc'.
Qed.

Lemma effect_isFinalized s s' :
  effect s s' -> isConfigured s = true -> isFinalized s = true ->
  isFinalized s' = true.
Proof.
  intros [->|sender q labels evs H|sender k e p evs H|Hc Hf ->|a ->] Hs Hfin; try done.
  - apply configureSurvey_Ok in H as (Hc & _). congruence.
  - apply submitVote_Ok in H as (_ & Hf & _). congruence.
Qed.

Lemma effect_hasVoted s s' voter :
  effect s s' -> mapping_get (hasVoted s) voter = true ->
  mapping_get (hasVoted s') voter = true.
Proof.
  intros [->|sender q labels evs H|sender k e p evs H|Hc Hf ->|a ->] Hs; try done.
  - by apply configureSurvey_Ok in H as (_ & _ & _ & ->).
  - apply submitVote_Ok in H
      as (_ & _ & _ & _ & _ & o & v & _ & _ & _ & _ & _ & _ & _ & _ & Hhv & _).
    rewrite Hhv. by apply mapping_get_insert_true.
Qed.

Lemma effect_optionHasVotes s s' k :
  effect s s' -> mapping_get (optionHasVotes s) k = true ->
  mapping_get (optionHasVotes s') k = true.
Proof.
  intros [->|sender q labels evs H|sender j e p evs H|Hc Hf ->|a ->] Hs; try done.
  - by apply configureSurvey_Ok in H as (_ & _ & _ & ->).
  - apply submitVote_Ok in H
      as (_ & _ & _ & _ & _ & o & v & _ & _ & _ & _ & _ & _ & _ & _ & _ & Hov).
    rewrite Hov. by apply mapping_get_insert_true.
Qed.

Lemma run_isConfigured txs s :
  isConfigured s = true -> isConfigured (run txs s) = true.
Proof.
  revert s. induction txs as [|tx txs IH]; intros s Hs; [done|].
  rewrite run_cons. apply IH. eapply effect_isConfigured; [apply exec_effect|done].
Qed.

Lemma run_isFinalized txs s :
  isConfigured s = true -> isFinalized s = true ->
  isFinalized (run txs s) = true.
Proof.
  revert s. induction txs as [|tx txs IH]; intros s Hs Hf; [done|].
  rewrite run_cons. apply IH.
  - eapply effect_isConfigured; [apply exec_effect|done].
  - eapply effect_isFinalized; [apply exec_effect|done..].
Qed.

Lemma run_hasVoted txs s voter :
  mapping_get (hasVoted s) voter = true ->
  mapping_get (hasVoted (run txs s)) voter = true.
Proof.
  revert s. induction txs as [|tx txs IH]; intros s Hs; [done|].
  rewrite run_cons. apply IH. eapply effect_hasVoted; [apply exec_effect|done].
Qed.

Lemma run_optionHasVotes txs s k :
  mapping_get (optionHasVotes s) k = true ->
  mapping_get (optionHasVotes (run txs s)) k = true.
Proof.
  revert s. induction txs as [|tx txs IH]; intros s Hs; [done|].
  rewrite run_cons. apply IH.
  eapply effect_optionHasVotes; [apply exec_effect|done].
Qed.

Lemma configured_flips_after txs s :
  isConfigured s = true -> configured_flips txs s = 0%nat.
Proof.
  revert s. induction txs as [|tx txs IH]; intros s Hs; [done|].
  simpl. rewrite Hs. simpl. apply IH.
  eapply effect_isConfigured; [apply exec_effect|done].
Qed.

Lemma configured_flips_le_1 txs s : (configured_flips txs s <= 1)%nat.
Proof.
  revert s. induction txs as [|tx txs IH]; intros s; simpl; [lia|].
  destruct (isConfigured (exec tx s)) eqn:Hc'.
  - rewrite configured_flips_after by done. case_match; lia.
  - rewrite andb_false_r. apply IH.
Qed.

End Lifecycle.

(** ** Configuration, double votes, finalization *)

Section Claims.
Context `{FHE : FHEVM}.

(** C2, as amended. Once a [submitVote] of [sender] has been accepted, every
    later [submitVote] of [sender] reverts, whatever option it names and
    whatever transactions ran in between: with [AlreadyVoted] as long as the
    survey is not finalized, with [SurveyClosed] once it is. *)
Theorem submitVote_only_once sender k e p s s1 evs :
  submitVote sender k e p s = Ok (s1, evs) ->
  forall txs k' e' p',
    submitVote sender k' e' p' (run txs s1)
    = Revert (if isFinalized (run txs s1) then SurveyClosed else AlreadyVoted).
Proof.
  intros Hok txs k' e' p'.
  apply submitVote_Ok in Hok
    as (Hc & _ & _ & _ & _ & o & v & _ & _ & _ & _ & _ & _ & Hc' & _ & Hhv & _).
  assert (Hc1 : isConfigured (run txs s1) = true).
  { apply run_isConfigured. congruence. }
  assert (Hv1 : mapping_get (hasVoted (run txs s1)) sender = true).
  { apply run_hasVoted. rewrite Hhv. apply mapping_get_insert. }
  unfold submitVote. rewrite Hc1, Hv1. simpl.
  by destruct (isFinalized (run txs s1)).
Qed.

(** C3. A reachable unconfigured survey rejects fewer than two labels with
    [InvalidOption] and keeps its state; with two labels or more the call
    records question and creator, creates one option per label (zero
    accumulator, no votes) and sets [isConfigured]; from then on every
    [configureSurvey] reverts with [SurveyClosed]. *)
Theorem configureSurvey_exactly_once sender q labels s :
  reachable s ->
  isConfigured s = false ->
  ((length labels < 2)%nat ->
     configureSurvey sender q labels s = Revert InvalidOption
     /\ exec (sender, ConfigureSurvey q labels) s = s)
  /\ ((2 <= length labels)%nat ->
      exists s',
        configureSurvey sender q labels s = Ok (s', [SurveyConfigured q labels])
        /\ surveyQuestion s' = q
        /\ surveyCreator s' = sender
        /\ isConfigured s' = true
        /\ isFinalized s' = false
        /\ length (_options s') = length labels
        /\ (forall (i : nat) l, labels !! i = Some l ->
              _options s' !! i = Some {| label := l; encryptedTotal := 0 |}
              /\ mapping_get (optionHasVotes s') (N.of_nat i) = false)
        /\ (forall txs sender' q' labels',
              configureSurvey sender' q' labels' (run txs s') = Revert SurveyClosed)).
Proof.
  intros Hreach Hc. split.
  - intros Hlen.
    assert (E : configureSurvey sender q labels s = Revert InvalidOption).
    { unfold configureSurvey. rewrite Hc.
      destruct (N.ltb_spec (N.of_nat (length labels)) 2); [done|lia]. }
    split; [done|]. unfold exec. simpl. by rewrite E.
  - intros Hlen. eexists. split.
    { unfold configureSurvey. rewrite Hc.
      destruct (N.ltb_spec (N.of_nat (length labels)) 2); [lia|].
      rewrite push_options_nil. reflexivity. }
    simpl. do 4 (split; [done|]). split; [apply length_map|]. split.
    + intros i l Hl. split.
      * by rewrite list_lookup_fmap, Hl.
      * rewrite (inv_fresh_votes _ (reachable_Inv _ Hreach) Hc).
        apply mapping_get_empty.
    + intros txs sender' q' labels'. unfold configureSurvey.
      by rewrite run_isConfigured.
Qed.

(** C4. [finalizeSurvey] reverts with [SurveyNotConfigured] before
    configuration and with [SurveyClosed] when the survey is finalized
    already.  Otherwise it sets [isFinalized] and nothing else; afterwards
    every [submitVote] reverts with [SurveyClosed], [getEncryptedTotal]
    answers as before for every valid index, and the three grant functions
    behave as they did before. *)
Theorem finalizeSurvey_spec sender s :
  (isConfigured s = false -> finalizeSurvey sender s = Revert SurveyNotConfigured)
  /\ (isConfigured s = true -> isFinalized s = true ->
      finalizeSurvey sender s = Revert SurveyClosed)
  /\ (isConfigured s = true -> isFinalized s = false ->
      exists s',
        finalizeSurvey sender s = Ok (s', [SurveyFinalized sender])
        /\ isFinalized s' = true
        /\ (owner s' = owner s /\ surveyCreator s' = surveyCreator s
            /\ surveyQuestion s' = surveyQuestion s /\ _options s' = _options s
            /\ isConfigured s' = isConfigured s /\ hasVoted s' = hasVoted s
            /\ optionHasVotes s' = optionHasVotes s /\ acl s' = acl s)
        /\ (forall txs sender' k e p,
              submitVote sender' k e p (run txs s') = Revert SurveyClosed)
        /\ (forall k, k < N.of_nat (length (_options s)) ->
              exists h, getEncryptedTotal k s = Ok h
                        /\ getEncryptedTotal k s' = Ok h)
        /\ (forall sender' grantee k,
              allowResultFor sender' grantee k s'
              = tx_map (set_isFinalized true) (allowResultFor sender' grantee k s))
        /\ (forall sender' k,
              allowResultForSelf sender' k s'
              = tx_map (set_isFinalized true) (allowResultForSelf sender' k s))
        /\ (forall sender',
              allowAllResultsForSelf sender' s'
              = tx_map (set_isFinalized true) (allowAllResultsForSelf sender' s))).
Proof.
  unfold finalizeSurvey. split; [|split].
  - by intros ->.
  - by intros -> ->.
  - intros Hc Hf. rewrite Hc, Hf. simpl.
    exists (set_isFinalized true s). split; [done|]. split; [done|].
    split; [done|]. split; [|split; [|split; [|split]]].
    + intros txs sender' k e p. unfold submitVote.
      rewrite run_isConfigured by done. rewrite run_isFinalized by done. done.
    + intros k Hk. destruct (options_lookup_lt _ _ Hk) as [o Ho].
      exists (encryptedTotal o). unfold getEncryptedTotal. simpl.
      rewrite Hc, Ho. simpl.
      destruct (N.leb_spec (N.of_nat (length (_options s))) k); [lia|done].
    + intros sender' grantee k. unfold allowResultFor. simpl.
      repeat (case_match; try done).
    + intros sender' k. unfold allowResultForSelf. simpl.
      repeat (case_match; try done).
    + intros sender'. unfold allowAllResultsForSelf. simpl.
      destruct (negb (isConfigured s)); [done|].
      destruct (allowAll_loop _ _ _ _ _) as [[a evs] b].
      by destruct (negb b).
Qed.

End Claims.

(** C2 as the specification words it does not hold: a vote sent after
    [finalizeSurvey] by an address that has voted reverts with
    [SurveyClosed], because the closed check comes before the ledger check. *)
Lemma submitVote_after_finalize_is_SurveyClosed :
  ~ (forall (FHE : FHEVM) sender k e p s s1 evs,
       reachable s ->
       submitVote sender k e p s = Ok (s1, evs) ->
       forall txs k' e' p',
         submitVote sender k' e' p' (run txs s1) = Revert AlreadyVoted).
Proof.
  intros claim.
  specialize (claim plain_fhe Scenario.alice 0 1 Scenario.proof
                Scenario.configured Scenario.voted
                [VoteSubmitted Scenario.alice 0]).
  specialize (claim (reachable_call _ _ (reachable_deploy _ _)) eq_refl
                [(Scenario.bob, FinalizeSurvey)] 1 1 Scenario.proof).
  vm_compute in claim. discriminate claim.
Qed.

(** ** Grants, invariants, queries *)

Section MoreClaims.
Context `{FHE : FHEVM}.

Lemma FHE_allow_idem (a : gset (N * N)) handle account :
  FHE_allow handle account (FHE_allow handle account a)
  = FHE_allow handle account a.
Proof. unfold FHE_allow. by rewrite (assoc_L (∪)), (idemp_L (∪)). Qed.

Lemma allowResultFor_grant sender grantee k s o :
  isConfigured s = true ->
  k < N.of_nat (length (_options s)) ->
  mapping_get (optionHasVotes s) k = true ->
  _options s !! N.to_nat k = Some o ->
  allowResultFor sender grantee k s
  = Ok (set_acl (FHE_allow (encryptedTotal o) grantee (acl s)) s,
        [ResultAccessGranted grantee k]).
Proof.
  intros Hc Hk Hv Ho. unfold allowResultFor. rewrite Hc, Hv, Ho. simpl.
  by destruct (N.leb_spec (N.of_nat (length (_options s))) k); [lia|].
Qed.

Lemma allowResultForSelf_grant sender k s o :
  isConfigured s = true ->
  k < N.of_nat (length (_options s)) ->
  mapping_get (optionHasVotes s) k = true ->
  _options s !! N.to_nat k = Some o ->
  allowResultForSelf sender k s
  = Ok (set_acl (FHE_allow (encryptedTotal o) sender (acl s)) s,
        [SelfAccessGranted sender k]).
Proof.
  intros Hc Hk Hv Ho. unfold allowResultForSelf. rewrite Hc, Hv, Ho. simpl.
  by destruct (N.leb_spec (N.of_nat (length (_options s))) k); [lia|].
Qed.

(** C5. In a configured survey [allowResultFor] and [allowResultForSelf]
    revert with [InvalidOption] for an index out of range and with
    [SurveyNotConfigured] for an option in range without votes; for an option
    in range with votes they succeed, adding the grantee to the readers of
    that option's accumulator and changing nothing else, and the same grant
    made again succeeds and returns the very same state. *)
Theorem allowResultFor_spec sender grantee k s :
  isConfigured s = true ->
  (N.of_nat (length (_options s)) <= k ->
     allowResultFor sender grantee k s = Revert InvalidOption
     /\ allowResultForSelf sender k s = Revert InvalidOption)
  /\ (k < N.of_nat (length (_options s)) ->
      mapping_get (optionHasVotes s) k = false ->
      allowResultFor sender grantee k s = Revert SurveyNotConfigured
      /\ allowResultForSelf sender k s = Revert SurveyNotConfigured)
  /\ (k < N.of_nat (length (_options s)) ->
      mapping_get (optionHasVotes s) k = true ->
      exists o s1 s2,
        _options s !! N.to_nat k = Some o
        /\ s1 = set_acl ({[ (encryptedTotal o, grantee) ]} ∪ acl s) s
        /\ s2 = set_acl ({[ (encryptedTotal o, sender) ]} ∪ acl s) s
        /\ allowResultFor sender grantee k s
           = Ok (s1, [ResultAccessGranted grantee k])
        /\ (forall sender',
              allowResultFor sender' grantee k s1
              = Ok (s1, [ResultAccessGranted grantee k]))
        /\ allowResultForSelf sender k s = Ok (s2, [SelfAccessGranted sender k])
        /\ allowResultForSelf sender k s2 = Ok (s2, [SelfAccessGranted sender k])).
Proof.
  intros Hc. split; [|split].
  - intros Hk. unfold allowResultFor, allowResultForSelf. rewrite Hc. simpl.
    by destruct (N.leb_spec (N.of_nat (length (_options s))) k); [|lia].
  - intros Hk Hv. unfold allowResultFor, allowResultForSelf. rewrite Hc. simpl.
    destruct (N.leb_spec (N.of_nat (length (_options s))) k); [lia|].
    by rewrite Hv.
  - intros Hk Hv. destruct (options_lookup_lt _ _ Hk) as [o Ho].
    exists o. do 2 eexists. split; [done|]. split; [reflexivity|].
    split; [reflexivity|].
    pose proof (FHE_allow_idem (acl s)) as Hidem. unfold FHE_allow in Hidem.
    split; [by apply allowResultFor_grant|]. split.
    { intros sender'. rewrite (allowResultFor_grant _ _ _ _ o) by done.
      unfold set_acl, FHE_allow. simpl. by rewrite Hidem. }
    split; [by apply allowResultForSelf_grant|].
    rewrite (allowResultForSelf_grant _ _ _ o) by done.
    unfold set_acl, FHE_allow. simpl. by rewrite Hidem.
Qed.

(** C7. In every reachable state a configured survey has at least two
    options and a finalized survey is configured; and whatever transactions
    follow, this still holds, [isConfigured] stays true once true and goes
    from false to true at most once, [isFinalized] stays true once true, and
    no voter record and no [optionHasVotes] flag goes back to false. *)
Theorem lifecycle_invariants s :
  reachable s ->
  (isConfigured s = true -> (2 <= length (_options s))%nat)
  /\ (isFinalized s = true -> isConfigured s = true)
  /\ forall txs,
       (isConfigured (run txs s) = true -> (2 <= length (_options (run txs s)))%nat)
       /\ (isFinalized (run txs s) = true -> isConfigured (run txs s) = true)
       /\ (isConfigured s = true -> isConfigured (run txs s) = true)
       /\ (configured_flips txs s <= 1)%nat
       /\ (isFinalized s = true -> isFinalized (run txs s) = true)
       /\ (forall voter, mapping_get (hasVoted s) voter = true ->
             mapping_get (hasVoted (run txs s)) voter = true)
       /\ (forall k, mapping_get (optionHasVotes s) k = true ->
             mapping_get (optionHasVotes (run txs s)) k = true).
Proof.
  intros Hreach. pose proof (reachable_Inv _ Hreach) as HI.
  split; [apply (inv_options _ HI)|]. split; [apply (inv_finalized _ HI)|].
  intros txs.
  pose proof (reachable_Inv _ (reachable_run txs _ Hreach)) as HI'.
  split; [apply (inv_options _ HI')|]. split; [apply (inv_finalized _ HI')|].
  split; [apply run_isConfigured|].
  split; [apply configured_flips_le_1|].
  split.
  { intros Hf. apply run_isFinalized; [by apply (inv_finalized _ HI)|done]. }
  split.
  - intros voter. apply run_hasVoted.
  - intros k. apply run_optionHasVotes.
Qed.

Lemma exec_hasVoted tx s voter :
  mapping_get (hasVoted (exec tx s)) voter
  = mapping_get (hasVoted s) voter
    || (is_vote_of voter tx && succeeds (call tx.1 tx.2 s)).
Proof.
  destruct tx as [sender c]. unfold exec, is_vote_of. simpl.
  destruct c; simpl; unfold of_tx; rewrite ?of_view_state, ?orb_false_r;
    try done.
  - destruct (configureSurvey _ _ _ _) as [[s' evs]|] eqn:E; [|done].
    by apply configureSurvey_Ok in E as (_ & _ & _ & ->).
  - destruct (submitVote _ _ _ _ _) as [[s' evs]|] eqn:E; simpl.
    + apply submitVote_Ok in E
        as (_ & _ & Hv & _ & _ & o & v & _ & _ & _ & _ & _ & _ & _ & _ & Hhv & _).
      rewrite Hhv, andb_true_r. case_bool_decide as Hs.
      * subst voter. rewrite mapping_get_insert. by rewrite orb_true_r.
      * rewrite mapping_get_insert_ne by done. by rewrite orb_false_r.
    + by rewrite andb_false_r, orb_false_r.
  - unfold finalizeSurvey.
    destruct (negb (isConfigured s)); [done|]. by destruct (isFinalized s).
  - destruct (allowResultFor _ _ _ _) as [[s' evs]|] eqn:E; [|done].
    by destruct (allowResultFor_Ok _ _ _ _ _ _ E) as [a ->].
  - destruct (allowResultForSelf _ _ _) as [[s' evs]|] eqn:E; [|done].
    by destruct (allowResultForSelf_Ok _ _ _ _ _ E) as [a ->].
  - destruct (allowAllResultsForSelf _ _) as [[s' evs]|] eqn:E; [|done].
    by destruct (allowAllResultsForSelf_Ok _ _ _ _ E) as [a ->].
Qed.

Lemma run_hasVoted_accepted txs s voter :
  mapping_get (hasVoted (run txs s)) voter
  = mapping_get (hasVoted s) voter || vote_accepted voter txs s.
Proof.
  revert s. induction txs as [|tx txs IH]; intros s.
  - simpl. by rewrite orb_false_r.
  - rewrite run_cons, IH, exec_hasVoted. simpl. by rewrite orb_assoc.
Qed.

(** C8. [hasVoterSubmitted] returns in every state, for every address and
    caller, and changes nothing; after any run of transactions on a fresh
    deployment its answer is true exactly when one of them was an accepted
    [submitVote] of that address. *)
Theorem hasVoterSubmitted_spec sender voter :
  (forall s, exists b,
      hasVoterSubmitted voter s = Ok b
      /\ call sender (HasVoterSubmitted voter) s = Ok (s, [], RBool b))
  /\ (forall deployer acl0 txs,
        hasVoterSubmitted voter (run txs (constructor_ deployer acl0))
        = Ok (vote_accepted voter txs (constructor_ deployer acl0))).
Proof.
  split.
  - intros s. by eexists.
  - intros deployer acl0 txs. unfold hasVoterSubmitted.
    by rewrite run_hasVoted_accepted.
Qed.

Lemma of_tx_Revert (r : tx_result) e : of_tx r = Revert e -> r = Revert e.
Proof. destruct r as [[s' evs]|e']; simpl; congruence. Qed.

Lemma of_view_Revert {A} (wrap : A -> RetVal) s (r : result A) e :
  of_view wrap s r = Revert e -> r = Revert e.
Proof. destruct r; simpl; congruence. Qed.

(** C9. No external function and no getter of the contract, whoever calls it
    and in whatever state, reverts with [NotOwner]. *)
Theorem NotOwner_unreachable sender c s : call sender c s ≠ Revert NotOwner.
Proof.
  intros Hcall. destruct c; unfold call in Hcall; try done;
    first [apply of_tx_Revert in Hcall | apply of_view_Revert in Hcall];
    revert Hcall.
  all: unfold configureSurvey, submitVote, finalizeSurvey, allowResultFor,
         allowResultForSelf, allowAllResultsForSelf, getOptionLabels,
         getEncryptedTotal, optionCount, hasVoterSubmitted.
  all: by repeat case_match.
Qed.

End MoreClaims.

(** ** Granting every eligible option at once *)

Section GrantAll.
Context `{FHE : FHEVM}.

Lemma elem_of_indices_from k i n :
  k ∈ indices_from i n <-> i <= k /\ k < i + N.of_nat n.
Proof.
  revert i. induction n as [|n IH]; intros i; simpl.
  - rewrite elem_of_nil. lia.
  - rewrite elem_of_cons, IH. lia.
Qed.

Lemma elem_of_options_with_votes k s :
  k ∈ options_with_votes s
  <-> k < N.of_nat (length (_options s))
      /\ mapping_get (optionHasVotes s) k = true.
Proof.
  unfold options_with_votes.
  rewrite list_elem_of_In, filter_In, <- list_elem_of_In, elem_of_indices_from.
  intuition lia.
Qed.

Lemma allowAll_loop_spec sender votes opts i a evs b :
  exists a',
    allowAll_loop sender votes opts i (a, evs, b)
    = (a',
       evs ++ map (SelfAccessGranted sender)
                  (List.filter (mapping_get votes) (indices_from i (length opts))),
       b || match List.filter (mapping_get votes) (indices_from i (length opts))
            with [] => false | _ => true end)
    /\ forall h u,
         (h, u) ∈ a'
         <-> (h, u) ∈ a
             \/ (u = sender
                 /\ exists (j : nat) o,
                      opts !! j = Some o
                      /\ mapping_get votes (i + N.of_nat j) = true
                      /\ h = encryptedTotal o).
Proof.
  revert i a evs b. induction opts as [|o rest IH]; intros i a evs b.
  - exists a. simpl. rewrite app_nil_r, orb_false_r. split; [done|].
    intros h u. split; [by left|].
    intros [Hin|(_ & j & o & Hj & _)]; [done|]. by rewrite lookup_nil in Hj.
  - simpl. destruct (mapping_get votes i) eqn:Hv.
    + destruct (IH (N.succ i) (FHE_allow (encryptedTotal o) sender a)
                   (evs ++ [SelfAccessGranted sender i]) true)
        as (a' & Hloop & Hacl).
      exists a'. split.
      { rewrite Hloop. simpl. rewrite <- app_assoc. simpl.
        by rewrite orb_true_r. }
      intros h u. rewrite Hacl. unfold FHE_allow.
      rewrite elem_of_union, elem_of_singleton. split.
      * intros [[Heq|Hin]|(-> & j & o' & Hj & Hvj & ->)].
        -- injection Heq as -> ->. right. split; [done|].
           exists 0%nat, o. repeat split; try done.
           by rewrite N.add_0_r.
        -- by left.
        -- right. split; [done|]. exists (S j), o'. repeat split; try done.
           by replace (i + N.of_nat (S j)) with (N.succ i + N.of_nat j) by lia.
      * intros [Hin|(-> & j & o' & Hj & Hvj & ->)]; [by left; right|].
        destruct j as [|j]; simpl in Hj.
        -- injection Hj as ->. by left; left.
        -- right. split; [done|]. exists j, o'. repeat split; try done.
           by replace (N.succ i + N.of_nat j) with (i + N.of_nat (S j)) by lia.
    + destruct (IH (N.succ i) a evs b) as (a' & Hloop & Hacl).
      exists a'. split; [done|].
      intros h u. rewrite Hacl. split.
      * intros [Hin|(-> & j & o' & Hj & Hvj & ->)]; [by left|].
        right. split; [done|]. exists (S j), o'. repeat split; try done.
        by replace (i + N.of_nat (S j)) with (N.succ i + N.of_nat j) by lia.
      * intros [Hin|(-> & j & o' & Hj & Hvj & ->)]; [by left|].
        destruct j as [|j]; simpl in Hj.
        -- rewrite N.add_0_r in Hvj. congruence.
        -- right. split; [done|]. exists j, o'. repeat split; try done.
           by replace (N.succ i + N.of_nat j) with (i + N.of_nat (S j)) by lia.
Qed.

(** C6. In a configured survey [allowAllResultsForSelf] reverts with
    [SurveyNotConfigured] exactly when no option has votes, and then nothing
    changes; otherwise it succeeds, emits one [SelfAccessGranted] per option
    with votes, in index order, and adds to the permission table the caller as
    reader of the accumulators of exactly those options. *)
Theorem allowAllResultsForSelf_spec sender s :
  isConfigured s = true ->
  (forall k, k ∈ options_with_votes s
             <-> k < N.of_nat (length (_options s))
                 /\ mapping_get (optionHasVotes s) k = true)
  /\ (allowAllResultsForSelf sender s = Revert SurveyNotConfigured
      <-> options_with_votes s = [])
  /\ (options_with_votes s = [] ->
      exec (sender, AllowAllResultsForSelf) s = s)
  /\ (options_with_votes s ≠ [] ->
      exists a,
        allowAllResultsForSelf sender s
        = Ok (set_acl a s, map (SelfAccessGranted sender) (options_with_votes s))
        /\ forall h u,
             (h, u) ∈ a
             <-> (h, u) ∈ acl s
                 \/ (u = sender
                     /\ exists k o,
                          k ∈ options_with_votes s
                          /\ _options s !! N.to_nat k = Some o
                          /\ h = encryptedTotal o)).
Proof.
  intros Hc. split; [intros k; apply elem_of_options_with_votes|].
  destruct (allowAll_loop_spec sender (optionHasVotes s) (_options s) 0
              (acl s) [] false) as (a & Hloop & Hacl).
  fold (options_with_votes s) in Hloop. simpl in Hloop.
  assert (Hcall : allowAllResultsForSelf sender s
                  = match options_with_votes s with
                    | [] => Revert SurveyNotConfigured
                    | _ => Ok (set_acl a s,
                               map (SelfAccessGranted sender) (options_with_votes s))
                    end).
  { unfold allowAllResultsForSelf. rewrite Hc, Hloop. simpl.
    by destruct (options_with_votes s). }
  split; [|split].
  - rewrite Hcall. by destruct (options_with_votes s).
  - intros Hnone. unfold exec. simpl. by rewrite Hcall, Hnone.
  - intros Hsome. exists a. split.
    { rewrite Hcall. by destruct (options_with_votes s). }
    intros h u. rewrite Hacl. split.
    + intros [Hin|(-> & j & o & Hj & Hvj & ->)]; [by left|].
      right. split; [done|]. exists (N.of_nat j), o.
      rewrite N.add_0_l in Hvj. rewrite Nat2N.id.
      repeat split; try done.
      apply elem_of_options_with_votes. split; [|done].
      apply lookup_lt_Some in Hj. lia.
    + intros [Hin|(-> & k & o & Hk & Ho & ->)]; [by left|].
      right. split; [done|]. exists (N.to_nat k), o.
      apply elem_of_options_with_votes in Hk as [_ Hv].
      rewrite N.add_0_l, N2Nat.id. by repeat split.
Qed.

End GrantAll.

(** ** Ballots along a run *)

Section Ballots.
Context `{FHE : FHEVM}.

(** A transaction that casts a ballot is the accepted [submitVote] the ballot
    records. *)
Lemma accepted_vote_Some tx s b :
  accepted_vote tx s = Some b ->
  exists e p evs,
    tx = (voter b, SubmitVote (choice b) e p)
    /\ submitVote (voter b) (choice b) e p s = Ok (exec tx s, evs)
    /\ FHE_fromExternal (acl s) (voter b) e p = Some (value b).
Proof.
  destruct tx as [sender c]. unfold accepted_vote, exec. simpl.
  destruct c; try done.
  simpl. unfold of_tx.
  destruct (submitVote sender optionIndex encryptedVote inputProof s)
    as [[s' evs]|err] eqn:E; simpl; [|done].
  destruct (FHE_fromExternal (acl s) sender encryptedVote inputProof)
    as [v|] eqn:Hv; simpl; [|done].
  intros [= <-]. simpl. by exists encryptedVote, inputProof, evs.
Qed.

(** A transaction that casts no ballot changes nothing, or configures the
    survey, or finalizes it, or only adds to the permission table. *)
Lemma accepted_vote_None tx s :
  accepted_vote tx s = None ->
  exec tx s = s
  \/ (exists q labels evs,
        configureSurvey tx.1 q labels s = Ok (exec tx s, evs))
  \/ (isConfigured s = true /\ isFinalized s = false
      /\ exec tx s = set_isFinalized true s)
  \/ (exists a, exec tx s = set_acl a s).
Proof.
  destruct tx as [sender c]. unfold accepted_vote, exec. simpl.
  destruct c; simpl; unfold of_tx; rewrite ?of_view_state;
    try (intros _; by left).
  - intros _.
    destruct (configureSurvey _ _ _ _) as [[s' evs]|] eqn:E; [|by left].
    right; left. by exists question, optionLabels, evs.
  - destruct (submitVote _ _ _ _ _) as [[s' evs]|] eqn:E; simpl; [|by left].
    apply submitVote_Ok in E as (_ & _ & _ & _ & _ & o & v & _ & Hv & _).
    by rewrite Hv.
  - intros _. unfold finalizeSurvey.
    destruct (isConfigured s) eqn:Hc; simpl; [|by left].
    destruct (isFinalized s) eqn:Hf; [by left|].
    right; right; left. done.
  - intros _.
    destruct (allowResultFor _ _ _ _) as [[s' evs]|] eqn:E; [|by left].
    destruct (allowResultFor_Ok _ _ _ _ _ _ E) as [a ->]. right; right; right.
    by exists a.
  - intros _.
    destruct (allowResultForSelf _ _ _) as [[s' evs]|] eqn:E; [|by left].
    destruct (allowResultForSelf_Ok _ _ _ _ _ E) as [a ->]. right; right; right.
    by exists a.
  - intros _.
    destruct (allowAllResultsForSelf _ _) as [[s' evs]|] eqn:E; [|by left].
    destruct (allowAllResultsForSelf_Ok _ _ _ _ E) as [a ->]. right; right; right.
    by exists a.
Qed.

Lemma ballots_cons tx txs s :
  ballots (tx :: txs) s
  = match accepted_vote tx s with
    | Some b => b :: ballots txs (exec tx s)
    | None => ballots txs (exec tx s)
    end.
Proof. reflexivity. Qed.

(** A voter record that is false after a transaction was false before. *)
Lemma exec_hasVoted_false tx s v :
  mapping_get (hasVoted (exec tx s)) v = false ->
  mapping_get (hasVoted s) v = false.
Proof.
  intros Hafter. destruct (mapping_get (hasVoted s) v) eqn:Hbefore; [|done].
  rewrite (effect_hasVoted _ _ v (exec_effect tx s) Hbefore) in Hafter. done.
Qed.

Lemma ballots_fresh_voters txs s b :
  b ∈ ballots txs s -> mapping_get (hasVoted s) (voter b) = false.
Proof.
  revert s. induction txs as [|tx txs IH]; intros s; [by rewrite elem_of_nil|].
  rewrite ballots_cons.
  destruct (accepted_vote tx s) as [b0|] eqn:Hb0.
  - rewrite elem_of_cons. intros [->|Hin].
    + apply accepted_vote_Some in Hb0 as (e & p & evs & _ & Hok & _).
      by apply submitVote_Ok in Hok as (_ & _ & Hv & _).
    + eapply exec_hasVoted_false, IH, Hin.
  - intros Hin. eapply exec_hasVoted_false, IH, Hin.
Qed.

(** X1. One address, one ballot: along any sequence of transactions, from
    any state, no two accepted votes come from the same address, and none
    comes from an address whose record was already set. *)
Theorem ballots_one_per_voter txs s :
  NoDup (map voter (ballots txs s))
  /\ forall b, b ∈ ballots txs s -> mapping_get (hasVoted s) (voter b) = false.
Proof.
  split; [|intros b; apply ballots_fresh_voters].
  revert s. induction txs as [|tx txs IH]; intros s; [constructor|].
  rewrite ballots_cons.
  destruct (accepted_vote tx s) as [b0|] eqn:Hb0; [|apply IH].
  simpl. constructor; [|apply IH].
  rewrite list_elem_of_fmap. intros (b & Heq & Hin).
  apply ballots_fresh_voters in Hin.
  apply accepted_vote_Some in Hb0 as (e & p & evs & _ & Hok & _).
  apply submitVote_Ok in Hok
    as (_ & _ & _ & _ & _ & o & v & _ & _ & _ & _ & _ & _ & _ & _ & Hhv & _).
  rewrite Hhv, <- Heq, mapping_get_insert in Hin. done.
Qed.

(** *** The accumulators *)

Lemma run_options_length txs s :
  isConfigured s = true ->
  length (_options (run txs s)) = length (_options s).
Proof.
  revert s. induction txs as [|tx txs IH]; intros s Hc; [done|].
  rewrite run_cons, IH by (eapply effect_isConfigured; [apply exec_effect|done]).
  destruct (exec_effect tx s) as [->|sender q labels evs H|sender k e p evs H|_ _ ->|a ->];
    try done.
  - apply configureSurvey_Ok in H as (Hc' & _). congruence.
  - apply submitVote_Ok in H
      as (_ & _ & _ & _ & _ & o & v & _ & _ & _ & _ & _ & Hopts & _).
    rewrite Hopts. apply length_insert.
Qed.

(** In a configured survey, option [k] keeps its label and its accumulator is
    the old one with the values cast for [k] added in order. *)
Lemma run_tally txs s (k : nat) o :
  isConfigured s = true ->
  _options s !! k = Some o ->
  exists o',
    _options (run txs s) !! k = Some o'
    /\ label o' = label o
    /\ encryptedTotal o'
       = fold_left FHE_add (ballot_values (N.of_nat k) (ballots txs s))
                   (encryptedTotal o).
Proof.
  revert s o. induction txs as [|tx txs IH]; intros s o Hc Ho.
  { by exists o. }
  assert (Hc' : isConfigured (exec tx s) = true)
    by (eapply effect_isConfigured; [apply exec_effect|done]).
  rewrite run_cons, ballots_cons.
  destruct (accepted_vote tx s) as [b|] eqn:Hb.
  - apply accepted_vote_Some in Hb as (e & p & evs & _ & Hok & Hv).
    apply submitVote_Ok in Hok
      as (_ & _ & _ & Hlt & _ & o0 & v & Ho0 & Hv' & _ & _ & _ & Hopts & _).
    assert (v = value b) as -> by congruence.
    unfold ballot_values. simpl.
    destruct (N.eqb_spec (choice b) (N.of_nat k)) as [Heq|Hne].
    + assert (N.to_nat (choice b) = k) as Hk by lia.
      rewrite Hk in Ho0, Hopts. assert (o0 = o) as -> by congruence.
      destruct (IH (exec tx s)
                  {| label := label o;
                     encryptedTotal := FHE_add (encryptedTotal o) (value b) |}
                  Hc') as (o' & Ho' & Hl & Ht).
      { rewrite Hopts. apply list_lookup_insert_eq.
        by apply lookup_lt_Some in Ho. }
      exists o'. by repeat split.
    + destruct (IH (exec tx s) o Hc') as (o' & Ho' & Hl & Ht).
      { rewrite Hopts, list_lookup_insert_ne by lia. done. }
      exists o'. by repeat split.
  - assert (Hopts : _options (exec tx s) = _options s).
    { destruct (accepted_vote_None _ _ Hb)
        as [->|[(q & labels & evs & H)|[(_ & _ & ->)|(a & ->)]]]; try done.
      apply configureSurvey_Ok in H as (Hc0 & _). congruence. }
    apply IH; [done|]. by rewrite Hopts.
Qed.

(** Before configuration no ballot is cast and nothing but a successful
    [configureSurvey] changes the state. *)
Lemma unconfigured_step tx s :
  Inv s -> isConfigured s = false ->
  accepted_vote tx s = None
  /\ (exec tx s = s
      \/ exists q labels evs,
           configureSurvey tx.1 q labels s = Ok (exec tx s, evs)).
Proof.
  intros _ Hc. destruct tx as [sender c]. unfold accepted_vote, exec. simpl.
  destruct c; simpl; unfold of_tx; rewrite ?of_view_state;
    try (split; [done|by left]).
  - split; [done|].
    destruct (configureSurvey _ _ _ _) as [[s' evs]|] eqn:E; [|by left].
    right. by exists question, optionLabels, evs.
  - unfold submitVote. rewrite Hc. simpl. split; [done|by left].
  - unfold finalizeSurvey. rewrite Hc. simpl. split; [done|by left].
  - unfold allowResultFor. rewrite Hc. simpl. split; [done|by left].
  - unfold allowResultForSelf. rewrite Hc. simpl. split; [done|by left].
  - unfold allowAllResultsForSelf. rewrite Hc. simpl. split; [done|by left].
Qed.

Lemma run_tally_fresh txs s (k : nat) o :
  Inv s -> isConfigured s = false ->
  _options (run txs s) !! k = Some o ->
  encryptedTotal o
  = fold_left FHE_add (ballot_values (N.of_nat k) (ballots txs s)) 0.
Proof.
  revert s. induction txs as [|tx txs IH]; intros s HI Hc Ho.
  { simpl in Ho. by rewrite (inv_fresh_options _ HI Hc) in Ho. }
  destruct (unconfigured_step tx s HI Hc) as [Hnone Hstep].
  rewrite run_cons in Ho. rewrite ballots_cons, Hnone.
  destruct Hstep as [Heq|(q & labels & evs & Hconf)].
  - rewrite Heq in *. by apply IH.
  - apply configureSurvey_Ok in Hconf as (_ & _ & _ & Hs').
    assert (Hc' : isConfigured (exec tx s) = true) by by rewrite Hs'.
    assert (Hlt : (k < length (_options (exec tx s)))%nat).
    { rewrite <- (run_options_length txs) by done. by eapply lookup_lt_Some. }
    apply lookup_lt_is_Some in Hlt as [o0 Ho0].
    destruct (run_tally txs _ k o0 Hc' Ho0) as (o' & Ho' & _ & Ht).
    assert (o' = o) as -> by congruence. rewrite Ht. f_equal.
    rewrite Hs' in Ho0. simpl in Ho0. rewrite list_lookup_fmap in Ho0.
    destruct (labels !! k); simpl in Ho0; [|done]. by injection Ho0 as <-.
Qed.

(** X2. The tally: after any transactions on a fresh deployment, the
    accumulator [getEncryptedTotal] returns for an option is the zero handle
    with the values of the ballots cast for that option added in the order
    they were cast; it reverts with [SurveyNotConfigured] before
    configuration and with [InvalidOption] past the last option. *)
Theorem getEncryptedTotal_tally deployer acl0 txs k :
  let s0 := constructor_ deployer acl0 in
  getEncryptedTotal k (run txs s0)
  = if negb (isConfigured (run txs s0)) then Revert SurveyNotConfigured
    else if N.of_nat (length (_options (run txs s0))) <=? k then Revert InvalidOption
    else Ok (fold_left FHE_add (ballot_values k (ballots txs s0)) 0).
Proof.
  intros s0. unfold getEncryptedTotal.
  destruct (negb (isConfigured (run txs s0))); [done|].
  destruct (N.leb_spec (N.of_nat (length (_options (run txs s0)))) k) as [|Hk];
    [done|].
  destruct (options_lookup_lt _ _ Hk) as [o Ho]. rewrite Ho.
  rewrite (run_tally_fresh txs s0 _ o (Inv_constructor _ _) eq_refl Ho).
  by rewrite N2Nat.id.
Qed.

(** The flag of an option after a run: set before, or a ballot was cast. *)
Lemma run_optionHasVotes_ballots txs s k :
  mapping_get (optionHasVotes (run txs s)) k
  = mapping_get (optionHasVotes s) k
    || existsb (fun b => choice b =? k) (ballots txs s).
Proof.
  revert s. induction txs as [|tx txs IH]; intros s.
  { simpl. by rewrite orb_false_r. }
  rewrite run_cons, ballots_cons, IH.
  destruct (accepted_vote tx s) as [b|] eqn:Hb.
  - apply accepted_vote_Some in Hb as (e & p & evs & _ & Hok & _).
    apply submitVote_Ok in Hok
      as (_ & _ & _ & _ & _ & o & v & _ & _ & _ & _ & _ & _ & _ & _ & _ & Hov).
    rewrite Hov. simpl. rewrite orb_assoc. f_equal.
    destruct (N.eqb_spec (choice b) k) as [->|Hne].
    + by rewrite mapping_get_insert, orb_true_r.
    + by rewrite mapping_get_insert_ne, orb_false_r.
  - f_equal. f_equal.
    destruct (accepted_vote_None _ _ Hb)
      as [->|[(q & labels & evs & H)|[(_ & _ & ->)|(a & ->)]]]; try done.
    by apply configureSurvey_Ok in H as (_ & _ & _ & ->).
Qed.

End Ballots.


(** ** Consistency of flags, ledger, accumulators and permissions *)

Section Consistency.
Context `{FHE : FHEVM}.

(** The permissions an accepted vote leaves behind. *)
Lemma submitVote_acl sender k e p s s' evs :
  submitVote sender k e p s = Ok (s', evs) ->
  acl s ⊆ acl s'
  /\ forall o', _options s' !! N.to_nat k = Some o' ->
       (encryptedTotal o', owner s) ∈ acl s'
       /\ (encryptedTotal o', this) ∈ acl s'
       /\ (surveyCreator s ≠ 0 -> (encryptedTotal o', surveyCreator s) ∈ acl s').
Proof.
  unfold submitVote.
  destruct (negb (isConfigured s)); [done|].
  destruct (isFinalized s); [done|].
  destruct (mapping_get (hasVoted s) sender); [done|].
  destruct (N.of_nat (length (_options s)) <=? k); [done|].
  destruct (_options s !! N.to_nat k) as [o|] eqn:Ho; [|done].
  destruct (FHE_fromExternal (acl s) sender e p) as [v|]; [|done].
  intros [= <- <-]. simpl. unfold FHE_allow. split.
  - destruct (surveyCreator s =? 0); set_solver.
  - intros o'. rewrite list_lookup_insert_eq by (by eapply lookup_lt_Some).
    intros [= <-]. simpl.
    destruct (N.eqb_spec (surveyCreator s) 0); repeat split; set_solver.
Qed.

Lemma exec_acl_mono tx s : acl s ⊆ acl (exec tx s).
Proof.
  destruct tx as [sender c]. unfold exec. simpl.
  destruct c; simpl; unfold of_tx; rewrite ?of_view_state; try done.
  - destruct (configureSurvey _ _ _ _) as [[s' evs]|] eqn:E; [|done].
    by apply configureSurvey_Ok in E as (_ & _ & _ & ->).
  - destruct (submitVote _ _ _ _ _) as [[s' evs]|] eqn:E; [|done].
    by apply submitVote_acl in E as [Hsub _].
  - unfold finalizeSurvey.
    destruct (negb (isConfigured s)); [done|]. by destruct (isFinalized s).
  - unfold allowResultFor. repeat case_match; try done.
    simpl. unfold FHE_allow. set_solver.
  - unfold allowResultForSelf. repeat case_match; try done.
    simpl. unfold FHE_allow. set_solver.
  - unfold allowAllResultsForSelf.
    destruct (negb (isConfigured s)); [done|].
    destruct (allowAll_loop_spec sender (optionHasVotes s) (_options s) 0
                (acl s) [] false) as (a & -> & Hacl).
    simpl. destruct (List.filter _ _); simpl; [done|].
    intros [h u] Hin. apply Hacl. by left.
Qed.

Lemma Consistent_constructor sender acl0 : Consistent (constructor_ sender acl0).
Proof.
  split; simpl.
  - intros k. by rewrite mapping_get_empty.
  - intros i o. by rewrite lookup_nil.
  - split; intros [x Hx]; by rewrite mapping_get_empty in Hx.
  - intros i o. by rewrite lookup_nil.
Qed.

Lemma Consistent_exec tx s :
  Inv s -> Consistent s -> Consistent (exec tx s).
Proof.
  intros HI HC. pose proof (exec_acl_mono tx s) as Hmono.
  destruct (accepted_vote tx s) as [b|] eqn:Hb.
  - apply accepted_vote_Some in Hb as (e & p & evs & _ & Hok & _).
    destruct (submitVote_acl _ _ _ _ _ _ _ Hok) as [_ Hnew].
    apply submitVote_Ok in Hok
      as (_ & _ & _ & Hlt & _ & o0 & v & Ho0 & _ & Hown & Hcr & _ & Hopts & _ & _
          & Hhv & Hov).
    set (s' := exec tx s) in *.
    split.
    + intros k. rewrite Hov, Hopts, length_insert.
      destruct (decide (choice b = k)) as [<-|Hne]; [done|].
      rewrite mapping_get_insert_ne by done. apply (cons_flag_range _ HC).
    + intros i o. rewrite Hov, Hopts.
      destruct (decide (choice b = N.of_nat i)) as [Heq|Hne].
      * rewrite Heq, mapping_get_insert. done.
      * rewrite mapping_get_insert_ne by done.
        rewrite list_lookup_insert_ne by lia. apply (cons_zero_handle _ HC).
    + split; intros _.
      * exists (choice b). rewrite Hov. apply mapping_get_insert.
      * exists (voter b). rewrite Hhv. apply mapping_get_insert.
    + intros i o Ho. rewrite Hov, Hown, Hcr.
      destruct (decide (choice b = N.of_nat i)) as [Heq|Hne].
      * intros _. apply Hnew. rewrite Heq, Nat2N.id. done.
      * rewrite mapping_get_insert_ne by done.
        rewrite Hopts, list_lookup_insert_ne in Ho by lia.
        intros Hflag.
        destruct (cons_access _ HC i o Ho Hflag) as (H1 & H2 & H3).
        repeat split; [by apply Hmono..|]. intros Hz. by apply Hmono, H3.
  - destruct (accepted_vote_None _ _ Hb)
      as [->|[(q & labels & evs & H)|[(_ & _ & Heq)|(a & Heq)]]]; [done|..].
    + apply configureSurvey_Ok in H as (Hc & _ & _ & Hs').
      pose proof (inv_fresh_votes _ HI Hc) as Hnoflags.
      pose proof (inv_fresh_voters _ HI Hc) as Hnovoters.
      rewrite Hs'. split; simpl; rewrite ?Hnoflags, ?Hnovoters.
      * intros k. by rewrite mapping_get_empty.
      * intros i o. rewrite list_lookup_fmap.
        destruct (labels !! i); simpl; [|done]. by intros [= <-].
      * split; intros [x Hx]; by rewrite mapping_get_empty in Hx.
      * intros i o _. by rewrite mapping_get_empty.
    + rewrite Heq. destruct HC as [H1 H2 H3 H4]. by split.
    + rewrite Heq in Hmono |- *. simpl in Hmono.
      destruct HC as [H1 H2 H3 H4]. split; simpl; try done.
      intros i o Ho Hflag. destruct (H4 i o Ho Hflag) as (Ha & Hb' & Hc).
      repeat split; [by apply Hmono..|]. intros Hz. by apply Hmono, Hc.
Qed.

Lemma reachable_Consistent s : reachable s -> Consistent s.
Proof.
  induction 1 as [sender acl0|tx s Hs IH].
  - apply Consistent_constructor.
  - apply Consistent_exec; [by apply reachable_Inv|done].
Qed.

End Consistency.

(** ** Grants and what has been voted *)

Section GrantsAndVotes.
Context `{FHE : FHEVM}.

(** In a reachable state a single grant goes through exactly when the
    option's flag is set. *)
Lemma allowResultFor_succeeds sender grantee k s :
  reachable s ->
  succeeds (allowResultFor sender grantee k s) = mapping_get (optionHasVotes s) k
  /\ succeeds (allowResultForSelf sender k s) = mapping_get (optionHasVotes s) k.
Proof.
  intros Hreach.
  pose proof (reachable_Inv _ Hreach) as HI.
  pose proof (reachable_Consistent _ Hreach) as HC.
  destruct (mapping_get (optionHasVotes s) k) eqn:Hflag.
  - pose proof (cons_flag_range _ HC k Hflag) as Hk.
    destruct (options_lookup_lt _ _ Hk) as [o Ho].
    assert (Hc : isConfigured s = true).
    { destruct (isConfigured s) eqn:Hc; [done|].
      rewrite (inv_fresh_votes _ HI Hc), mapping_get_empty in Hflag. done. }
    rewrite (allowResultFor_grant _ _ _ _ o), (allowResultForSelf_grant _ _ _ o)
      by done.
    done.
  - unfold allowResultFor, allowResultForSelf. rewrite Hflag. simpl.
    destruct (negb (isConfigured s)); [done|].
    by destruct (N.of_nat (length (_options s)) <=? k).
Qed.

(** X3. After any transactions on a fresh deployment, the flag of an option
    is set exactly when a ballot was cast for it, and that is exactly when
    [allowResultFor] and [allowResultForSelf] succeed on it, whoever calls
    and whoever is to be granted access. *)
Theorem grant_iff_ballot deployer acl0 txs sender grantee k :
  let s0 := constructor_ deployer acl0 in
  let cast := existsb (fun b => choice b =? k) (ballots txs s0) in
  mapping_get (optionHasVotes (run txs s0)) k = cast
  /\ succeeds (allowResultFor sender grantee k (run txs s0)) = cast
  /\ succeeds (allowResultForSelf sender k (run txs s0)) = cast.
Proof.
  intros s0 cast.
  assert (Hflag : mapping_get (optionHasVotes (run txs s0)) k = cast).
  { rewrite run_optionHasVotes_ballots. unfold s0. simpl.
    by rewrite mapping_get_empty. }
  split; [done|]. rewrite <- Hflag.
  apply allowResultFor_succeeds, reachable_run, reachable_deploy.
Qed.

(** X4. In a reachable state of a configured survey, an option nobody has
    voted for still has the zero handle it was created with. *)
Theorem unvoted_option_has_zero_handle s k :
  reachable s ->
  isConfigured s = true ->
  k < N.of_nat (length (_options s)) ->
  mapping_get (optionHasVotes s) k = false ->
  getEncryptedTotal k s = Ok 0.
Proof.
  intros Hreach Hc Hk Hflag. unfold getEncryptedTotal. rewrite Hc. simpl.
  destruct (N.leb_spec (N.of_nat (length (_options s))) k); [lia|].
  destruct (options_lookup_lt _ _ Hk) as [o Ho]. rewrite Ho. f_equal.
  apply (cons_zero_handle _ (reachable_Consistent _ Hreach) _ _ Ho).
  by rewrite N2Nat.id.
Qed.

(** X5. In a reachable state every option that has votes can be read, and
    the current accumulator may be decrypted by the owner, by the contract
    itself and by the creator (when that is not the zero address). *)
Theorem owner_and_creator_can_decrypt s k :
  reachable s ->
  mapping_get (optionHasVotes s) k = true ->
  exists h,
    getEncryptedTotal k s = Ok h
    /\ (h, owner s) ∈ acl s
    /\ (h, this) ∈ acl s
    /\ (surveyCreator s ≠ 0 -> (h, surveyCreator s) ∈ acl s).
Proof.
  intros Hreach Hflag.
  pose proof (reachable_Inv _ Hreach) as HI.
  pose proof (reachable_Consistent _ Hreach) as HC.
  pose proof (cons_flag_range _ HC k Hflag) as Hk.
  destruct (options_lookup_lt _ _ Hk) as [o Ho].
  assert (Hc : isConfigured s = true).
  { destruct (isConfigured s) eqn:Hc; [done|].
    rewrite (inv_fresh_votes _ HI Hc), mapping_get_empty in Hflag. done. }
  exists (encryptedTotal o). split.
  - unfold getEncryptedTotal. rewrite Hc, Ho. simpl.
    by destruct (N.leb_spec (N.of_nat (length (_options s))) k); [lia|].
  - apply (cons_access _ HC _ _ Ho). by rewrite N2Nat.id.
Qed.

(** What [allowAllResultsForSelf] answers in a configured survey. *)
Lemma allowAllResultsForSelf_succeeds sender s :
  succeeds (allowAllResultsForSelf sender s)
  = isConfigured s
    && match options_with_votes s with [] => false | _ => true end.
Proof.
  unfold allowAllResultsForSelf.
  destruct (isConfigured s); simpl; [|done].
  destruct (allowAll_loop_spec sender (optionHasVotes s) (_options s) 0
              (acl s) [] false) as (a & -> & _).
  fold (options_with_votes s). simpl.
  by destruct (options_with_votes s).
Qed.

(** X6. In a reachable state [allowAllResultsForSelf] succeeds exactly when
    somebody has voted. *)
Theorem allowAll_iff_somebody_voted sender s :
  reachable s ->
  succeeds (allowAllResultsForSelf sender s) = true
  <-> exists v, mapping_get (hasVoted s) v = true.
Proof.
  intros Hreach.
  pose proof (reachable_Inv _ Hreach) as HI.
  pose proof (reachable_Consistent _ Hreach) as HC.
  rewrite allowAllResultsForSelf_succeeds, (cons_voters_flags _ HC). split.
  - intros [_ Hsome]%andb_true_iff.
    destruct (options_with_votes s) as [|k rest] eqn:Hl; [done|].
    exists k. apply (elem_of_options_with_votes k s). rewrite Hl. by left.
  - intros [k Hflag].
    assert (Hc : isConfigured s = true).
    { destruct (isConfigured s) eqn:Hc; [done|].
      rewrite (inv_fresh_votes _ HI Hc), mapping_get_empty in Hflag. done. }
    rewrite Hc. simpl.
    assert (Hin : k ∈ options_with_votes s).
    { apply elem_of_options_with_votes. split; [|done].
      by apply (cons_flag_range _ HC). }
    destruct (options_with_votes s); [|done]. by apply elem_of_nil in Hin.
Qed.

(** X7. No transaction revokes a permission: every reader in the table is
    still in it after any sequence of transactions. *)
Theorem acl_only_grows txs s : acl s ⊆ acl (run txs s).
Proof.
  revert s. induction txs as [|tx txs IH]; intros s; [done|].
  rewrite run_cons. etrans; [apply exec_acl_mono|apply IH].
Qed.

End GrantsAndVotes.

(** ** What stays fixed *)

Section Permanence.
Context `{FHE : FHEVM}.

Lemma set_acl_self s : set_acl (acl s) s = s.
Proof. by destruct s. Qed.

(** One transaction on a finalized survey touches the permission table at
    most. *)
Lemma exec_finalized tx s :
  isConfigured s = true -> isFinalized s = true ->
  exec tx s = set_acl (acl (exec tx s)) s.
Proof.
  intros Hc Hf.
  destruct (exec_effect tx s) as [->|sender q labels evs H|sender k e p evs H|_ Hf' ->|a ->].
  - by rewrite set_acl_self.
  - apply configureSurvey_Ok in H as (Hc' & _). congruence.
  - apply submitVote_Ok in H as (_ & Hf' & _). congruence.
  - congruence.
  - done.
Qed.

(** X8. Finalization freezes the survey: after it no sequence of
    transactions changes the question, the options, their accumulators and
    flags, the voter ledger or the two lifecycle flags; only the permission
    table can still grow. *)
Theorem finalized_survey_is_frozen txs s :
  isConfigured s = true ->
  isFinalized s = true ->
  run txs s = set_acl (acl (run txs s)) s.
Proof.
  revert s. induction txs as [|tx txs IH]; intros s Hc Hf.
  - simpl. by rewrite set_acl_self.
  - rewrite run_cons.
    assert (Hc' : isConfigured (exec tx s) = true)
      by (eapply effect_isConfigured; [apply exec_effect|done]).
    assert (Hf' : isFinalized (exec tx s) = true)
      by (eapply effect_isFinalized; [apply exec_effect|done..]).
    rewrite (IH _ Hc' Hf') at 1. by rewrite (exec_finalized tx s Hc Hf) at 2.
Qed.

(** One transaction on a configured survey keeps the labels, the question
    and the creator. *)
Lemma exec_configuration tx s :
  isConfigured s = true ->
  map label (_options (exec tx s)) = map label (_options s)
  /\ surveyQuestion (exec tx s) = surveyQuestion s
  /\ surveyCreator (exec tx s) = surveyCreator s.
Proof.
  intros Hc.
  destruct (exec_effect tx s) as [->|sender q labels evs H|sender k e p evs H|_ _ ->|a ->];
    try done.
  - apply configureSurvey_Ok in H as (Hc' & _). congruence.
  - apply submitVote_Ok in H
      as (_ & _ & _ & _ & _ & o & v & Ho & _ & _ & Hcr & Hq & Hopts & _).
    repeat split; try done.
    rewrite Hopts, list_fmap_insert. simpl.
    apply list_insert_id. by rewrite list_lookup_fmap, Ho.
Qed.

Lemma run_configuration txs s :
  isConfigured s = true ->
  map label (_options (run txs s)) = map label (_options s)
  /\ surveyQuestion (run txs s) = surveyQuestion s
  /\ surveyCreator (run txs s) = surveyCreator s.
Proof.
  revert s. induction txs as [|tx txs IH]; intros s Hc; [done|].
  rewrite run_cons.
  assert (Hc' : isConfigured (exec tx s) = true)
    by (eapply effect_isConfigured; [apply exec_effect|done]).
  destruct (IH _ Hc') as (-> & -> & ->). by apply exec_configuration.
Qed.

(** X9. What a successful [configureSurvey] fixed stays fixed: after any
    further transactions [getOptionLabels] returns the labels that were
    passed, in order, [optionCount] their number, and question and creator
    are the ones of that call. *)
Theorem configuration_is_permanent sender q labels s s' evs :
  configureSurvey sender q labels s = Ok (s', evs) ->
  forall txs,
    getOptionLabels (run txs s') = Ok labels
    /\ optionCount (run txs s') = Ok (N.of_nat (length labels))
    /\ surveyQuestion (run txs s') = q
    /\ surveyCreator (run txs s') = sender.
Proof.
  intros Hconf txs.
  apply configureSurvey_Ok in Hconf as (_ & _ & _ & Hs').
  assert (Hc : isConfigured s' = true) by by rewrite Hs'.
  destruct (run_configuration txs s' Hc) as (Hlabels & Hq & Hcr).
  assert (Hl : map label (_options s') = labels).
  { rewrite Hs'. simpl. rewrite map_map. simpl. apply map_id. }
  unfold getOptionLabels, optionCount.
  rewrite (run_isConfigured txs s' Hc). simpl.
  rewrite Hq, Hcr, <- (length_map label (_options (run txs s'))), Hlabels, Hl.
  by rewrite Hs'.
Qed.

Lemma exec_owner tx s : owner (exec tx s) = owner s.
Proof.
  destruct (exec_effect tx s) as [->|sender q labels evs H|sender k e p evs H|_ _ ->|a ->];
    try done.
  - by apply configureSurvey_Ok in H as (_ & _ & _ & ->).
  - by apply submitVote_Ok in H as (_ & _ & _ & _ & _ & o & v & _ & _ & Hown & _).
Qed.

Lemma run_owner txs s : owner (run txs s) = owner s.
Proof.
  revert s. induction txs as [|tx txs IH]; intros s; [done|].
  by rewrite run_cons, IH, exec_owner.
Qed.

(** X10. The owner is the deployer for good: after any transactions the
    [owner] getter returns the address that deployed the contract. *)
Theorem owner_is_the_deployer deployer acl0 txs sender :
  let s := run txs (constructor_ deployer acl0) in
  call sender Get_owner s = Ok (s, [], RAddress deployer).
Proof. simpl. by rewrite run_owner. Qed.

(** X11. The three views agree in every reachable state: before
    configuration all revert with [SurveyNotConfigured]; afterwards
    [optionCount] returns some [n] of at least two, [getOptionLabels] a list
    of [n] labels, and [getEncryptedTotal] a handle for every index below [n]
    and [InvalidOption] for every other index. *)
Theorem views_agree s :
  reachable s ->
  (isConfigured s = false ->
     getOptionLabels s = Revert SurveyNotConfigured
     /\ optionCount s = Revert SurveyNotConfigured
     /\ forall k, getEncryptedTotal k s = Revert SurveyNotConfigured)
  /\ (isConfigured s = true ->
      exists n labels,
        2 <= n
        /\ optionCount s = Ok n
        /\ getOptionLabels s = Ok labels
        /\ N.of_nat (length labels) = n
        /\ forall k,
             (k < n -> exists h, getEncryptedTotal k s = Ok h)
             /\ (n <= k -> getEncryptedTotal k s = Revert InvalidOption)).
Proof.
  intros Hreach. unfold getOptionLabels, optionCount, getEncryptedTotal. split.
  - by intros ->.
  - intros Hc. rewrite Hc. simpl.
    pose proof (inv_options _ (reachable_Inv _ Hreach) Hc) as Hlen.
    exists (N.of_nat (length (_options s))), (map label (_options s)).
    split; [lia|]. do 2 (split; [done|]). split; [by rewrite length_map|].
    intros k. split.
    + intros Hk. destruct (options_lookup_lt _ _ Hk) as [o Ho].
      exists (encryptedTotal o). rewrite Ho.
      by destruct (N.leb_spec (N.of_nat (length (_options s))) k); [lia|].
    + intros Hk.
      by destruct (N.leb_spec (N.of_nat (length (_options s))) k); [|lia].
Qed.


End Permanence.

(** ** The options box of the survey form *)

Section OptionLines.

Lemma trimStart_suffix s :
  exists p, s = p ++ trimStart s /\ Forall (fun c => is_whitespace c = true) p.
Proof.
  induction s as [|c s (p & Hs & Hp)]; simpl.
  - by exists [].
  - destruct (is_whitespace c) eqn:Hc.
    + exists (c :: p). split; [by rewrite <- app_comm_cons, <- Hs|].
      by constructor.
    + by exists [].
Qed.

Lemma trimStart_head s c :
  head (trimStart s) = Some c -> is_whitespace c = false.
Proof.
  induction s as [|d s IH]; simpl; [done|].
  destruct (is_whitespace d) eqn:Hd; [done|]. simpl. congruence.
Qed.

Lemma trimStart_id s :
  (forall c, head s = Some c -> is_whitespace c = false) -> trimStart s = s.
Proof.
  destruct s as [|c s]; simpl; [done|]. intros H. by rewrite (H c).
Qed.

Lemma trim_head s c : head (trim s) = Some c -> is_whitespace c = false.
Proof.
  unfold trim, trimEnd. rewrite head_reverse.
  destruct (trimStart_suffix (reverse (trimStart s))) as (p & Hs & _).
  intros Hlast.
  assert (Hl : last (reverse (trimStart s)) = Some c).
  { rewrite Hs. destruct (trimStart (reverse (trimStart s))) as [|x t] eqn:Ht;
      [done|]. rewrite last_app, Hlast. done. }
  rewrite last_reverse in Hl. by apply trimStart_head in Hl.
Qed.

Lemma trim_last s c : last (trim s) = Some c -> is_whitespace c = false.
Proof. unfold trim, trimEnd. rewrite last_reverse. apply trimStart_head. Qed.

Lemma trimStart_elem s c : c ∈ trimStart s -> c ∈ s.
Proof.
  destruct (trimStart_suffix s) as (p & Hs & _). intros Hin.
  rewrite Hs. apply elem_of_app. by right.
Qed.

Lemma trim_elem s c : c ∈ trim s -> c ∈ s.
Proof.
  unfold trim, trimEnd. rewrite elem_of_reverse.
  intros Hin%trimStart_elem. rewrite elem_of_reverse in Hin.
  by apply trimStart_elem.
Qed.

Lemma clean_line_iff l :
  clean_line l = true
  <-> l ≠ []
      /\ (forall c, head l = Some c -> is_whitespace c = false)
      /\ (forall c, last l = Some c -> is_whitespace c = false)
      /\ LF ∉ l.
Proof.
  assert (HLF : forallb (fun x => negb (x =? LF)) l = true <-> LF ∉ l).
  { rewrite forallb_forall. split.
    - intros H Hin%list_elem_of_In. apply H in Hin.
      by rewrite N.eqb_refl in Hin.
    - intros H x Hx%list_elem_of_In.
      destruct (N.eqb_spec x LF) as [->|]; done. }
  unfold clean_line. destruct (head l) as [c|] eqn:Hh.
  - destruct (last l) as [d|] eqn:Hl.
    + rewrite !andb_true_iff, !negb_true_iff, HLF. split.
      * intros [[Hc Hd] Hno]. repeat split; try congruence.
        intros ->. done.
      * intros (_ & Hc & Hd & Hno). by rewrite (Hc c), (Hd d).
    + apply last_None in Hl. by subst l.
  - apply head_None in Hh. subst l. split; [done|]. by intros (? & _).
Qed.

Lemma trim_clean l : clean_line l = true -> trim l = l.
Proof.
  intros (_ & Hhead & Hlast & _)%clean_line_iff. unfold trim, trimEnd.
  rewrite (trimStart_id l Hhead).
  rewrite trimStart_id; [apply reverse_involutive|].
  intros c. rewrite head_reverse. apply Hlast.
Qed.

Lemma cons_head_elem c lines l x :
  l ∈ cons_head c lines -> x ∈ l ->
  x = c \/ exists l', l' ∈ lines /\ x ∈ l'.
Proof.
  destruct lines as [|l0 rest]; simpl.
  - intros ->%list_elem_of_singleton ->%list_elem_of_singleton. by left.
  - rewrite elem_of_cons. intros [->|Hin].
    + rewrite elem_of_cons. intros [->|Hx]; [by left|].
      right. exists l0. split; [by left|done].
    + intros Hx. right. exists l. split; [by right|done].
Qed.

(** No line of a split text contains a line feed. *)
Lemma split_lines_no_LF s l : l ∈ split_lines s -> LF ∉ l.
Proof.
  revert l. induction s as [s IH] using (induction_ltof1 _ (@length N)).
  unfold ltof in IH. intros l. destruct s as [|c rest]; simpl.
  { intros ->%list_elem_of_singleton. apply not_elem_of_nil. }
  assert (Hchar : c ≠ LF -> l ∈ cons_head c (split_lines rest) -> LF ∉ l).
  { intros Hc Hin HLF.
    destruct (cons_head_elem _ _ _ _ Hin HLF) as [?|(l' & Hl' & HLF')]; [done|].
    by apply (IH rest ltac:(simpl; lia) l'). }
  destruct (N.eqb_spec c LF) as [->|Hc].
  { rewrite elem_of_cons. intros [->|Hin]; [apply not_elem_of_nil|].
    apply (IH rest); [simpl; lia|done]. }
  destruct rest as [|d rest']; [by apply Hchar|].
  destruct ((c =? CR) && (d =? LF)); [|by apply Hchar].
  rewrite elem_of_cons. intros [->|Hin]; [apply not_elem_of_nil|].
  apply (IH rest'); [simpl; lia|done].
Qed.

(** X13. Every label the form passes on is clean: it is not empty, neither
    starts nor ends with white space, and contains no line feed. *)
Theorem optionLines_clean optionDraft :
  forallb clean_line (optionLines optionDraft) = true.
Proof.
  apply forallb_forall. intros l. unfold optionLines.
  rewrite filter_In, <- list_elem_of_In, list_elem_of_fmap.
  intros [(l0 & -> & Hl0) Htruthy]. apply clean_line_iff. repeat split.
  - by destruct (trim l0).
  - apply trim_head.
  - apply trim_last.
  - intros HLF%trim_elem. by apply (split_lines_no_LF _ _ Hl0).
Qed.

(** A text without line feed is one line. *)
Lemma split_lines_one l : LF ∉ l -> split_lines l = [l].
Proof.
  induction l as [|c l IH]; [done|].
  rewrite not_elem_of_cons. intros [Hc Hl]. simpl.
  destruct (N.eqb_spec c LF) as [|_]; [congruence|].
  rewrite (IH Hl). destruct l as [|d l']; [done|].
  apply not_elem_of_cons in Hl as [Hd _].
  destruct (N.eqb_spec d LF) as [|_]; [congruence|]. by rewrite andb_false_r.
Qed.

(** A first line without line feed and without CR at its end is split off
    as it is. *)
Lemma split_lines_app l rest :
  LF ∉ l -> last l ≠ Some CR ->
  split_lines (l ++ LF :: rest) = l :: split_lines rest.
Proof.
  induction l as [|c l IH]; [done|].
  rewrite not_elem_of_cons. intros [Hc Hl] Hlast.
  rewrite <- app_comm_cons. simpl.
  destruct (N.eqb_spec c LF) as [|_]; [congruence|].
  destruct l as [|d l'].
  - simpl. destruct (N.eqb_spec c CR) as [->|_]; [done|]. done.
  - rewrite IH; [|done|by rewrite last_cons_cons in Hlast].
    rewrite <- app_comm_cons.
    apply not_elem_of_cons in Hl as [Hd _].
    destruct (N.eqb_spec d LF) as [|_]; [congruence|]. by rewrite andb_false_r.
Qed.

Lemma clean_line_last_not_CR l : clean_line l = true -> last l ≠ Some CR.
Proof. intros (_ & _ & Hlast & _)%clean_line_iff HCR. by apply Hlast in HCR. Qed.

Lemma clean_line_no_LF l : clean_line l = true -> LF ∉ l.
Proof. by intros (_ & _ & _ & HLF)%clean_line_iff. Qed.

Lemma clean_line_truthy l : clean_line l = true -> truthy l = true.
Proof. intros (Hne & _)%clean_line_iff. by destruct l. Qed.

(** X14. The form reads back what it shows: clean labels written one per
    line, with a line feed between two of them, are parsed into exactly
    those labels, in order. *)
Theorem optionLines_join_lines lines :
  forallb clean_line lines = true ->
  optionLines (join_lines lines) = lines.
Proof.
  induction lines as [|l rest IH]; [done|].
  simpl. intros [Hl Hrest]%andb_true_iff.
  pose proof (clean_line_truthy l Hl) as Hnil.
  destruct rest as [|l' rest'].
  - unfold optionLines.
    rewrite split_lines_one by by apply clean_line_no_LF. simpl.
    by rewrite (trim_clean l Hl), Hnil.
  - unfold optionLines in *.
    rewrite split_lines_app;
      [|by apply clean_line_no_LF|by apply clean_line_last_not_CR].
    simpl. rewrite (trim_clean l Hl), Hnil. f_equal. by apply IH.
Qed.

Lemma split_lines_not_nil s : split_lines s ≠ [].
Proof.
  destruct s as [|c rest]; simpl; [done|].
  destruct (c =? LF); [done|].
  assert (forall ls, cons_head c ls ≠ []) by (by intros []).
  destruct rest as [|d rest']; [done|]. by destruct ((c =? CR) && (d =? LF)).
Qed.

Lemma cons_head_length c lines :
  lines ≠ [] -> length (cons_head c lines) = length lines.
Proof. by destruct lines. Qed.

Lemma split_lines_length s :
  (length (split_lines s) <= S (length (List.filter (fun c => N.eqb c LF) s)))%nat.
Proof.
  induction s as [s IH] using (induction_ltof1 _ (@length N)).
  unfold ltof in IH. destruct s as [|c rest]; [simpl; lia|].
  pose proof (IH rest ltac:(simpl; lia)) as IHrest.
  assert (Hchar :
    (length (cons_head c (split_lines rest))
     <= S (length (List.filter (fun c => N.eqb c LF) (c :: rest))))%nat).
  { rewrite cons_head_length by apply split_lines_not_nil.
    simpl. destruct (c =? LF); simpl; lia. }
  cbn [split_lines]. destruct (N.eqb_spec c LF) as [->|Hc].
  { simpl. lia. }
  destruct rest as [|d rest']; [done|].
  destruct ((c =? CR) && (d =? LF)) eqn:Hsep; [|exact Hchar].
  apply andb_true_iff in Hsep as [_ Hd%N.eqb_eq]. subst d.
  pose proof (IH rest' ltac:(simpl; lia)) as IH'.
  simpl. destruct (c =? LF); simpl; lia.
Qed.

(** X15. There are at most as many labels as line feeds in the box, plus
    one: without a line break the form cannot reach the two options
    [configureSurvey] asks for. *)
Theorem optionLines_at_most_one_per_line optionDraft :
  (length (optionLines optionDraft)
   <= S (length (List.filter (fun c => N.eqb c LF) optionDraft)))%nat.
Proof.
  unfold optionLines.
  etrans; [apply filter_length_le|]. rewrite length_map.
  apply split_lines_length.
Qed.

End OptionLines.

(** ** The event log *)

Section EventLog.
Context `{FHE : FHEVM}.

(** What a call emits: its one event when it returns (one per option with
    votes for [allowAllResultsForSelf]), nothing when it reverts, nothing for
    a view. *)
Lemma events_of_call sender c s :
  events_of (call sender c s)
  = if succeeds (call sender c s) then
      match c with
      | ConfigureSurvey q labels => [SurveyConfigured q labels]
      | SubmitVote k _ _ => [VoteSubmitted sender k]
      | FinalizeSurvey => [SurveyFinalized sender]
      | AllowResultFor grantee k => [ResultAccessGranted grantee k]
      | AllowResultForSelf k => [SelfAccessGranted sender k]
      | AllowAllResultsForSelf =>
          map (SelfAccessGranted sender) (options_with_votes s)
      | _ => []
      end
    else [].
Proof.
  destruct c; simpl; unfold of_tx, of_view; try done.
  - destruct (configureSurvey _ _ _ _) as [[s' evs]|] eqn:E; [|done].
    by apply configureSurvey_Ok in E as (_ & _ & -> & _).
  - destruct (submitVote _ _ _ _ _) as [[s' evs]|] eqn:E; [|done].
    by apply submitVote_Ok in E as (_ & _ & _ & _ & -> & _).
  - unfold finalizeSurvey.
    destruct (negb (isConfigured s)); [done|]. by destruct (isFinalized s).
  - destruct (allowResultFor _ _ _ _) as [[s' evs]|] eqn:E; [|done].
    simpl. revert E. unfold allowResultFor.
    repeat case_match; try done. by intros [= _ <-].
  - destruct (allowResultForSelf _ _ _) as [[s' evs]|] eqn:E; [|done].
    simpl. revert E. unfold allowResultForSelf.
    repeat case_match; try done. by intros [= _ <-].
  - unfold allowAllResultsForSelf.
    destruct (negb (isConfigured s)); [done|].
    destruct (allowAll_loop_spec sender (optionHasVotes s) (_options s) 0
                (acl s) [] false) as (a & -> & _).
    fold (options_with_votes s). simpl.
    by destruct (options_with_votes s).
  - by destruct (getOptionLabels s).
  - by destruct (getEncryptedTotal optionIndex s).
  - by destruct (optionCount s).
Qed.

Lemma filter_SelfAccessGranted (P : Event -> bool) user l :
  (forall k, P (SelfAccessGranted user k) = false) ->
  List.filter P (map (SelfAccessGranted user) l) = [].
Proof.
  intros HP. induction l as [|k l IH]; [done|]. simpl. by rewrite HP.
Qed.

Lemma emitted_cons tx txs s :
  emitted (tx :: txs) s = events_of (call tx.1 tx.2 s) ++ emitted txs (exec tx s).
Proof. reflexivity. Qed.

(** X16. The log tells who voted for what: the [VoteSubmitted] events written
    along any sequence of transactions are, in order, the voter and the
    option index of each accepted vote, and nothing else. *)
Theorem VoteSubmitted_log_is_the_ballots txs s :
  List.filter is_VoteSubmitted (emitted txs s)
  = map (fun b => VoteSubmitted (voter b) (choice b)) (ballots txs s).
Proof.
  revert s. induction txs as [|tx txs IH]; intros s; [done|].
  rewrite emitted_cons, ballots_cons, List.filter_app, IH, events_of_call.
  destruct tx as [sender c]. unfold accepted_vote. simpl.
  destruct c; simpl; unfold of_tx, of_view; try done;
    try (case_match; simpl; [case_match|]; done).
  - destruct (submitVote _ _ _ _ _) as [[s' evs]|] eqn:E; simpl; [|done].
    apply submitVote_Ok in E as (_ & _ & _ & _ & _ & o & v & _ & -> & _).
    done.
  - destruct (allowAllResultsForSelf sender s) as [[s' evs]|]; simpl; [|done].
    by rewrite filter_SelfAccessGranted.
Qed.

Lemma emitted_no_SurveyConfigured txs s :
  isConfigured s = true ->
  List.filter is_SurveyConfigured (emitted txs s) = [].
Proof.
  revert s. induction txs as [|tx txs IH]; intros s Hc; [done|].
  rewrite emitted_cons, List.filter_app, IH
    by (eapply effect_isConfigured; [apply exec_effect|done]).
  rewrite app_nil_r, events_of_call. destruct tx as [sender c]. simpl.
  destruct (succeeds (call sender c s)) eqn:Hs; [|done].
  destruct c; try done.
  - simpl in Hs. unfold configureSurvey in Hs. by rewrite Hc in Hs.
  - by apply filter_SelfAccessGranted.
Qed.

Lemma emitted_no_SurveyFinalized txs s :
  isConfigured s = true -> isFinalized s = true ->
  List.filter is_SurveyFinalized (emitted txs s) = [].
Proof.
  revert s. induction txs as [|tx txs IH]; intros s Hc Hf; [done|].
  rewrite emitted_cons, List.filter_app, IH.
  - rewrite app_nil_r, events_of_call. destruct tx as [sender c]. simpl.
    destruct (succeeds (call sender c s)) eqn:Hs; [|done].
    destruct c; try done.
    + simpl in Hs. unfold finalizeSurvey in Hs. by rewrite Hc, Hf in Hs.
    + by apply filter_SelfAccessGranted.
  - eapply effect_isConfigured; [apply exec_effect|done].
  - eapply effect_isFinalized; [apply exec_effect|done..].
Qed.

(** X17. Along any sequence of transactions, from any state, the log gets at
    most one [SurveyConfigured] and at most one [SurveyFinalized] event. *)
Theorem lifecycle_events_at_most_once txs s :
  (length (List.filter is_SurveyConfigured (emitted txs s)) <= 1)%nat
  /\ (length (List.filter is_SurveyFinalized (emitted txs s)) <= 1)%nat.
Proof.
  split.
  - revert s. induction txs as [|tx txs IH]; intros s; [simpl; lia|].
    rewrite emitted_cons, List.filter_app, length_app, events_of_call.
    destruct tx as [sender c]. cbn [fst snd].
    destruct (succeeds (call sender c s)) eqn:Hs; [|apply IH].
    destruct c; try apply IH.
    + simpl in Hs.
      destruct (configureSurvey sender question optionLabels s)
        as [[s' evs]|] eqn:E; [|done].
      assert (Hexec : exec (sender, ConfigureSurvey question optionLabels) s = s').
      { unfold exec. simpl. by rewrite E. }
      apply configureSurvey_Ok in E as (_ & _ & _ & Hs').
      rewrite Hexec, emitted_no_SurveyConfigured; [simpl; lia|].
      by rewrite Hs'.
    + rewrite filter_SelfAccessGranted by done. apply IH.
  - revert s. induction txs as [|tx txs IH]; intros s; [simpl; lia|].
    rewrite emitted_cons, List.filter_app, length_app, events_of_call.
    destruct tx as [sender c]. cbn [fst snd].
    destruct (succeeds (call sender c s)) eqn:Hs; [|apply IH].
    destruct c; try apply IH.
    + simpl in Hs. unfold finalizeSurvey in Hs.
      destruct (isConfigured s) eqn:Hc; [|done].
      destruct (isFinalized s) eqn:Hf; [done|].
      assert (Hexec : exec (sender, FinalizeSurvey) s = set_isFinalized true s).
      { unfold exec. simpl. unfold finalizeSurvey. by rewrite Hc, Hf. }
      rewrite Hexec, emitted_no_SurveyFinalized by done. simpl. lia.
    + rewrite filter_SelfAccessGranted by done. apply IH.
Qed.

End EventLog.

(** ** The contract at work

    The scenarios of the survey's life, run on the stand-in engine: Alice
    configures a survey with two options and votes for the first, Bob
    finalizes it. *)

#[local] Existing Instance plain_fhe.

Example scenario_A :
  getOptionLabels Scenario.voted = Ok ["Red"; "Blue"]
  /\ hasVoterSubmitted Scenario.alice Scenario.voted = Ok true
  /\ hasVoterSubmitted Scenario.bob Scenario.voted = Ok false.
Proof. vm_compute. done. Qed.

Example scenario_B :
  submitVote Scenario.alice 1 1 Scenario.proof Scenario.voted = Revert AlreadyVoted
  /\ mapping_get (optionHasVotes Scenario.voted) 1 = false.
Proof. vm_compute. done. Qed.

Example scenario_C :
  allowResultForSelf Scenario.bob 0 Scenario.configured = Revert SurveyNotConfigured
  /\ succeeds (allowResultForSelf Scenario.bob 0 Scenario.voted) = true.
Proof. vm_compute. done. Qed.

Example scenario_D :
  submitVote Scenario.bob 0 1 Scenario.proof Scenario.finalized = Revert SurveyClosed
  /\ getEncryptedTotal 0 Scenario.finalized = getEncryptedTotal 0 Scenario.voted
  /\ getEncryptedTotal 0 Scenario.finalized = Ok 1.
Proof. vm_compute. done. Qed.

Lemma reachable_configured : reachable Scenario.configured.
Proof. apply reachable_call, reachable_deploy. Qed.

Lemma reachable_voted : reachable Scenario.voted.
Proof. apply reachable_call, reachable_configured. Qed.

(** Bob's vote for "Blue" in the configured survey is accepted. *)
Lemma submitVote_accepts_witness :
  exists o s',
    _options Scenario.configured !! N.to_nat 1 = Some o
    /\ submitVote Scenario.bob 1 1 Scenario.proof Scenario.configured
       = Ok (s', [VoteSubmitted Scenario.bob 1])
    /\ getEncryptedTotal 1 s' = Ok (FHE_add (encryptedTotal o) 1)
    /\ mapping_get (hasVoted s') Scenario.bob = true.
Proof.
  destruct (submitVote_accepts Scenario.bob 1 1 Scenario.proof 1
              Scenario.configured)
    as (o & s' & Ho & Hcall & _ & Hget & _ & Hvoted & _);
    [reflexivity..|].
  exists o, s'. repeat split; assumption.
Defined.

(** Alice's vote for "Red" leaves "Blue" and Bob's record alone. *)
Lemma submitVote_frame_witness :
  _options Scenario.voted !! N.to_nat 1 = _options Scenario.configured !! N.to_nat 1
  /\ mapping_get (hasVoted Scenario.voted) Scenario.bob
     = mapping_get (hasVoted Scenario.configured) Scenario.bob
  /\ isFinalized Scenario.voted = isFinalized Scenario.configured.
Proof.
  assert (Hvote : submitVote Scenario.alice 0 1 Scenario.proof Scenario.configured
                  = Ok (Scenario.voted, [VoteSubmitted Scenario.alice 0]))
    by (vm_compute; reflexivity).
  destruct (submitVote_frame Scenario.alice 0 1 Scenario.proof
              Scenario.configured Scenario.voted
              [VoteSubmitted Scenario.alice 0] Hvote)
    as (Hopt & Hvoter & _ & _ & Hfin & _).
  split; [|split].
  - apply Hopt. discriminate.
  - apply Hvoter. discriminate.
  - exact Hfin.
Defined.

(** Alice's second vote: [AlreadyVoted] while the survey is open,
    [SurveyClosed] once Bob has finalized it. *)
Lemma submitVote_only_once_witness :
  submitVote Scenario.alice 1 1 Scenario.proof Scenario.voted
  = Revert AlreadyVoted
  /\ submitVote Scenario.alice 1 1 Scenario.proof Scenario.finalized
     = Revert SurveyClosed.
Proof.
  assert (Hvote : submitVote Scenario.alice 0 1 Scenario.proof Scenario.configured
                  = Ok (Scenario.voted, [VoteSubmitted Scenario.alice 0]))
    by (vm_compute; reflexivity).
  split.
  - apply (submitVote_only_once Scenario.alice 0 1 Scenario.proof
             Scenario.configured Scenario.voted
             [VoteSubmitted Scenario.alice 0] Hvote []).
  - apply (submitVote_only_once Scenario.alice 0 1 Scenario.proof
             Scenario.configured Scenario.voted
             [VoteSubmitted Scenario.alice 0] Hvote
             [(Scenario.bob, FinalizeSurvey)]).
Defined.

(** The fresh deployment refuses a one-option survey and accepts "Red"/"Blue";
    a second configuration is refused. *)
Lemma configureSurvey_exactly_once_witness :
  configureSurvey Scenario.alice "Q" ["Red"] Scenario.deployed
  = Revert InvalidOption
  /\ exists s',
       configureSurvey Scenario.alice "Q" ["Red"; "Blue"] Scenario.deployed
       = Ok (s', [SurveyConfigured "Q" ["Red"; "Blue"]])
       /\ isConfigured s' = true
       /\ configureSurvey Scenario.bob "R" ["Yes"; "No"] s' = Revert SurveyClosed.
Proof.
  split.
  - apply (configureSurvey_exactly_once Scenario.alice "Q" ["Red"]
             Scenario.deployed (reachable_deploy _ _) eq_refl).
    simpl. lia.
  - destruct (configureSurvey_exactly_once Scenario.alice "Q" ["Red"; "Blue"]
                Scenario.deployed (reachable_deploy _ _) eq_refl)
      as [_ Hok].
    destruct Hok as (s' & Hcall & _ & _ & Hc & _ & _ & _ & Hagain);
      [simpl; lia|].
    exists s'. repeat split; try assumption. apply (Hagain []).
Defined.

(** Finalizing after Alice's vote. *)
Lemma finalizeSurvey_spec_witness :
  exists s',
    finalizeSurvey Scenario.bob Scenario.voted
    = Ok (s', [SurveyFinalized Scenario.bob])
    /\ submitVote Scenario.bob 0 1 Scenario.proof s' = Revert SurveyClosed.
Proof.
  destruct (finalizeSurvey_spec Scenario.bob Scenario.voted) as (_ & _ & Hok).
  destruct Hok as (s' & Hcall & _ & _ & Hvote & _); [reflexivity..|].
  exists s'. split; [assumption|]. apply (Hvote []).
Defined.

(** After Alice's vote, option 0 can be granted (twice), option 1 has no
    votes, option 5 does not exist. *)
Lemma allowResultFor_spec_witness :
  allowResultFor Scenario.alice Scenario.bob 5 Scenario.voted = Revert InvalidOption
  /\ allowResultFor Scenario.alice Scenario.bob 1 Scenario.voted
     = Revert SurveyNotConfigured
  /\ exists s1,
       allowResultFor Scenario.alice Scenario.bob 0 Scenario.voted
       = Ok (s1, [ResultAccessGranted Scenario.bob 0])
       /\ allowResultFor Scenario.alice Scenario.bob 0 s1
          = Ok (s1, [ResultAccessGranted Scenario.bob 0]).
Proof.
  split; [|split].
  - apply (allowResultFor_spec Scenario.alice Scenario.bob 5 Scenario.voted eq_refl).
    vm_compute. discriminate.
  - apply (allowResultFor_spec Scenario.alice Scenario.bob 1 Scenario.voted eq_refl);
      reflexivity.
  - destruct (allowResultFor_spec Scenario.alice Scenario.bob 0 Scenario.voted eq_refl)
      as (_ & _ & Hok).
    destruct Hok as (o & s1 & s2 & _ & _ & _ & Hcall & Hagain & _);
      [reflexivity..|].
    exists s1. split; [assumption|apply Hagain].
Defined.

(** After Alice's vote, granting everything grants option 0 and only it. *)
Lemma allowAllResultsForSelf_spec_witness :
  options_with_votes Scenario.voted = [0]
  /\ allowAllResultsForSelf Scenario.bob Scenario.configured
     = Revert SurveyNotConfigured
  /\ exists a,
       allowAllResultsForSelf Scenario.bob Scenario.voted
       = Ok (set_acl a Scenario.voted, [SelfAccessGranted Scenario.bob 0]).
Proof.
  split; [reflexivity|]. split.
  - apply (allowAllResultsForSelf_spec Scenario.bob Scenario.configured eq_refl).
    reflexivity.
  - destruct (allowAllResultsForSelf_spec Scenario.bob Scenario.voted eq_refl)
      as (_ & _ & _ & Hok).
    destruct Hok as (a & Hcall & _); [discriminate|].
    exists a. exact Hcall.
Defined.

(** The invariants along the whole scenario, from the deployment on. *)
Lemma lifecycle_invariants_witness :
  (2 <= length (_options Scenario.finalized))%nat
  /\ (configured_flips
        [(Scenario.alice, ConfigureSurvey "Q" ["Red"; "Blue"]);
         (Scenario.alice, SubmitVote 0 1 Scenario.proof);
         (Scenario.bob, FinalizeSurvey)] Scenario.deployed <= 1)%nat.
Proof.
  destruct (lifecycle_invariants Scenario.deployed (reachable_deploy _ _))
    as (_ & _ & Hrun).
  destruct (Hrun [(Scenario.alice, ConfigureSurvey "Q" ["Red"; "Blue"]);
                  (Scenario.alice, SubmitVote 0 1 Scenario.proof);
                  (Scenario.bob, FinalizeSurvey)])
    as (Hopts & _ & _ & Hflips & _).
  split; [apply Hopts; reflexivity | exact Hflips].
Defined.

(** Nobody voted for "Blue": its accumulator is the zero handle. *)
Lemma unvoted_option_has_zero_handle_witness :
  getEncryptedTotal 1 Scenario.voted = Ok 0.
Proof.
  apply (unvoted_option_has_zero_handle Scenario.voted 1 reachable_voted);
    reflexivity.
Defined.

(** After Alice's vote the deployer and Alice, who configured the survey,
    may decrypt the total of "Red". *)
Lemma owner_and_creator_can_decrypt_witness :
  exists h,
    getEncryptedTotal 0 Scenario.voted = Ok h
    /\ (h, owner Scenario.voted) ∈ acl Scenario.voted
    /\ (h, this) ∈ acl Scenario.voted
    /\ (surveyCreator Scenario.voted ≠ 0 ->
        (h, surveyCreator Scenario.voted) ∈ acl Scenario.voted).
Proof.
  apply (owner_and_creator_can_decrypt Scenario.voted 0 reachable_voted).
  reflexivity.
Defined.

(** Granting everything works after Alice's vote, somebody having voted. *)
Lemma allowAll_iff_somebody_voted_witness :
  succeeds (allowAllResultsForSelf Scenario.bob Scenario.voted) = true
  <-> exists v, mapping_get (hasVoted Scenario.voted) v = true.
Proof.
  apply (allowAll_iff_somebody_voted Scenario.bob Scenario.voted reachable_voted).
Defined.

(** A grant after finalization changes the permission table only. *)
Lemma finalized_survey_is_frozen_witness :
  run [(Scenario.alice, AllowResultFor Scenario.bob 0)] Scenario.finalized
  = set_acl
      (acl (run [(Scenario.alice, AllowResultFor Scenario.bob 0)]
                Scenario.finalized))
      Scenario.finalized.
Proof.
  apply (finalized_survey_is_frozen
           [(Scenario.alice, AllowResultFor Scenario.bob 0)] Scenario.finalized);
    reflexivity.
Defined.

(** The labels Alice configured are still there after the vote and the
    finalization. *)
Lemma configuration_is_permanent_witness :
  getOptionLabels Scenario.finalized = Ok ["Red"; "Blue"]
  /\ optionCount Scenario.finalized = Ok 2
  /\ surveyQuestion Scenario.finalized = "Q"
  /\ surveyCreator Scenario.finalized = Scenario.alice.
Proof.
  assert (Hconf : configureSurvey Scenario.alice "Q" ["Red"; "Blue"]
                    Scenario.deployed
                  = Ok (Scenario.configured,
                        [SurveyConfigured "Q" ["Red"; "Blue"]]))
    by (vm_compute; reflexivity).
  apply (configuration_is_permanent _ _ _ _ _ _ Hconf
           [(Scenario.alice, SubmitVote 0 1 Scenario.proof);
            (Scenario.bob, FinalizeSurvey)]).
Defined.

(** The views of the survey after Alice's vote. *)
Lemma views_agree_witness :
  exists n labels,
    2 <= n
    /\ optionCount Scenario.voted = Ok n
    /\ getOptionLabels Scenario.voted = Ok labels
    /\ N.of_nat (length labels) = n
    /\ forall k,
         (k < n -> exists h, getEncryptedTotal k Scenario.voted = Ok h)
         /\ (n <= k -> getEncryptedTotal k Scenario.voted = Revert InvalidOption).
Proof.
  apply (views_agree Scenario.voted reachable_voted). reflexivity.
Defined.

(** "Yes" and "No", one per line. *)
Lemma optionLines_join_lines_witness :
  optionLines (join_lines [[89; 101; 115]; [78; 111]])
  = [[89; 101; 115]; [78; 111]].
Proof. apply optionLines_join_lines. reflexivity. Defined.
